(** * ThetaRhoMeanPeakSegSearch::segment

    Shallow embedding of the per-beam intensity-peak scan and of the
    threshold-ordered extraction loop of
    [Segmentation/SegmentSearcher/ThetaRhoMeanPeakSegSearch.cpp], together
    with [load] and the loop of [calibUI] of the same file.

    Conventions.
    - [int] values are integers of [Z] with the 32-bit two's-complement
      wrap-around written out ([to_int]); [unsigned] values wrap with
      [to_unsigned]; a [ushort] pixel is read through [to_ushort].
    - Counters that index a [std::vector] ([i], [segCount],
      [peaksPostions.size()]) are natural numbers.
    - [float] arithmetic is kept behind the interface [FloatOps]; the code is
      translated operation by operation and the general theorems hold for
      any implementation of the interface. The inputs that are evaluated
      use one vertical beam, on which the arithmetic is exact. *)

From Stdlib Require Import ZArith QArith Lia.
From stdpp Require Import base list sorting gmap strings.

Close Scope Q_scope.
Local Open Scope Z_scope.

(** ** Machine integers *)

Definition to_int (z : Z) : Z := (z + 2 ^ 31) mod 2 ^ 32 - 2 ^ 31.
Definition to_unsigned (z : Z) : Z := z mod 2 ^ 32.
Definition to_ushort (z : Z) : Z := z mod 2 ^ 16.

(** ** Floating point and [cv::Point2f] *)

Class FloatOps (F : Type) := {
  f_of_Z : Z → F;            (* int / unsigned → float *)
  f_add : F → F → F;
  f_sub : F → F → F;
  f_mul : F → F → F;
  f_div : F → F → F;
  f_neg : F → F;
  f_sin : F → F;
  f_cos : F → F;
  f_pi : F;                  (* M_PI *)
  f_trunc : F → Z            (* float → int, towards zero *)
}.

Record Point2f (F : Type) := mkPoint { px : F; py : F }.
Arguments mkPoint {F} _ _.
Arguments px {F} _.
Arguments py {F} _.

Section Point2fOps.
Context `{FloatOps F}.

(* Point2f + Point2f *)
Definition pt_add (a b : Point2f F) : Point2f F :=
  mkPoint (f_add (px a) (px b)) (f_add (py a) (py b)).

(* Point2f * int *)
Definition pt_mul_int (a : Point2f F) (k : Z) : Point2f F :=
  mkPoint (f_mul (px a) (f_of_Z k)) (f_mul (py a) (f_of_Z k)).

(* the (row, column) an [at<ushort>(p.y, p.x)] access addresses *)
Definition pixel_of (p : Point2f F) : Z * Z := (f_trunc (py p), f_trunc (px p)).
End Point2fOps.

(** ** [cv::Mat] of 16-bit samples

    [pix] is total: the source performs no bounds check, so what an access
    outside [rows] x [cols] reads is whatever [pix] says there. *)

Record Mat := mkMat { rows : Z; cols : Z; pix : Z → Z → Z }.

Definition mat_at (img : Mat) (row col : Z) : Z := to_ushort (pix img row col).

Definition mat_of_rows (l : list (list Z)) : Mat :=
  mkMat (Z.of_nat (length l))
        (Z.of_nat (length (default [] (head l))))
        (λ r c, if bool_decide (0 ≤ r ∧ 0 ≤ c)
                then default 0 (default [] (l !! Z.to_nat r) !! Z.to_nat c)
                else 0).

(** ** [CircularQueue] *)

(** Modelled from the spec: the class CircularQueue is declared outside this
    file; the spec describes it as a bounded FIFO of at most W values,
    [push] evicting the oldest value when full before appending, [clear]
    emptying it, and a window of capacity 0 staying empty. [front] of an
    empty queue is taken to be 0. *)
Record CircularQueue := mkQueue { cq_capacity : Z; cq_items : list Z }.

Definition cq_size (q : CircularQueue) : Z := Z.of_nat (length (cq_items q)).
Definition cq_front (q : CircularQueue) : Z := default 0 (head (cq_items q)).
Definition cq_pop (q : CircularQueue) : CircularQueue :=
  mkQueue (cq_capacity q) (tail (cq_items q)).
Definition cq_clear (q : CircularQueue) : CircularQueue :=
  mkQueue (cq_capacity q) [].
Definition cq_push (v : Z) (q : CircularQueue) : CircularQueue :=
  let q1 := if cq_capacity q <=? cq_size q then cq_pop q else q in
  if cq_size q1 <? cq_capacity q1
  then mkQueue (cq_capacity q1) (cq_items q1 ++ [v])
  else q1.

(** ** Configuration *)

(** Modelled from the spec: the data members are declared in
    ThetaRhoMeanPeakSegSearch.h, outside this file; they are the integer
    parameters the spec lists, and [bearing] is the field of view in
    degrees. Comparisons against them are comparisons of integers. *)
Record Config (F : Type) := mkConfig {
  nBeams : Z;
  startBin : Z;
  Hmin : Z;
  bearing : F;
  sonVerticalPosition : Z;
  minSampleSize : Z;
  meanWindowSize : Z
}.
Arguments mkConfig {F} _ _ _ _ _ _ _.
Arguments nBeams {F} _.
Arguments startBin {F} _.
Arguments Hmin {F} _.
Arguments bearing {F} _.
Arguments sonVerticalPosition {F} _.
Arguments minSampleSize {F} _.
Arguments meanWindowSize {F} _.

(** ** State of the bin loop *)

Record Run := mkRun {
  maxHeight : Z; maxHBin : Z;
  minHeight : Z; minHBin : Z;
  onPeak : bool
}.

Record Window := mkWindow { ACCIntensity : Z; lastBins : CircularQueue }.

(* [peaks] holds (threshold, index into peaksPostions) *)
Record Found (F : Type) := mkFound {
  peaks : list (Z * nat);
  peaksPostions : list (Point2f F)
}.
Arguments mkFound {F} _ _.
Arguments peaks {F} _.
Arguments peaksPostions {F} _.

Record BeamState (F : Type) := mkBeam {
  binPos : Point2f F;
  run : Run;
  window : Window;
  found : Found F
}.
Arguments mkBeam {F} _ _ _ _.
Arguments binPos {F} _.
Arguments run {F} _.
Arguments window {F} _.
Arguments found {F} _.

(* line 104-107: the locals at the top of the beam loop *)
Definition run_init : Run := mkRun 0 (-1) 99999 (-1) false.

(** ** The body of the bin loop (lines 112-192) *)

(* lines 119, 123-124 *)
Definition meanIntensity (w : Window) : Z :=
  if 0 <? cq_size (lastBins w)
  then ACCIntensity w ÷ cq_size (lastBins w)
  else 0.

(* lines 130-148 and 166-169: what happens to the run variables *)
Definition track (hmin bin peakHeight : Z) (r : Run) : Run :=
  if hmin <? peakHeight then
    if negb (onPeak r) then
      mkRun peakHeight (to_int bin) peakHeight (to_int bin) true
    else if maxHeight r <? peakHeight then
      mkRun peakHeight (to_int bin) (minHeight r) (minHBin r) true
    else if peakHeight <? minHeight r then
      mkRun (maxHeight r) (maxHBin r) peakHeight (to_int bin) true
    else r
  else if onPeak r then
    mkRun 0 (-1) (minHeight r) (minHBin r) false
  else r.

(* lines 172-183 *)
Definition save_bin (w_size binI : Z) (on_peak : bool) (w : Window) : Window :=
  if negb on_peak then
    let w1 :=
      if w_size <=? cq_size (lastBins w)
      then mkWindow (to_int (ACCIntensity w - cq_front (lastBins w)))
                    (cq_pop (lastBins w))
      else w in
    mkWindow (to_int (ACCIntensity w1 + binI)) (cq_push binI (lastBins w1))
  else w.

Section Scan.
Context `{FloatOps F}.
Variable cfg : Config F.
Variable img : Mat.

(* line 63 *)
Definition nBins : Z := to_unsigned (rows img - startBin cfg).

Section Beam.
Variables binStartPos beamDir : Point2f F.

(* lines 115-118 *)
Definition sample_pos (st : BeamState F) : Point2f F :=
  pt_add (binPos st) beamDir.
Definition binI (st : BeamState F) : Z :=
  mat_at img (f_trunc (py (sample_pos st))) (f_trunc (px (sample_pos st))).

(* line 127 *)
Definition peakHeight (st : BeamState F) : Z :=
  to_int (binI st - meanIntensity (window st)).

(* lines 149-165 *)
Definition emit (meanI height : Z) (r : Run) (f : Found F) : Found F :=
  if Hmin cfg <? height then f
  else if onPeak r then
    let threshold := to_int (meanI + minHeight r) in
    let peakPosition := pt_add binStartPos (pt_mul_int beamDir (maxHBin r)) in
    mkFound (peaks f ++ [(threshold, length (peaksPostions f))])
            (peaksPostions f ++ [peakPosition])
  else f.

Definition scan_bin (st : BeamState F) (bin : Z) : BeamState F :=
  let run' := track (Hmin cfg) bin (peakHeight st) (run st) in
  mkBeam (sample_pos st)
         run'
         (save_bin (meanWindowSize cfg) (binI st) (onPeak run') (window st))
         (emit (meanIntensity (window st)) (peakHeight st) (run st) (found st)).

(* for(unsigned bin = 0; bin < nBins; bin++) over a list of bin numbers *)
Definition scan_bins (st : BeamState F) (bins : list Z) : BeamState F :=
  foldl scan_bin st bins.

(* the state in which each bin of [bins] is met *)
Fixpoint bin_states (st : BeamState F) (bins : list Z) : list (BeamState F) :=
  match bins with
  | [] => []
  | bin :: rest => st :: bin_states (scan_bin st bin) rest
  end.
End Beam.

(* lines 95-109: the locals of one beam *)
Definition beam_start (sonarPos : Point2f F) (currentRad : F) : Point2f F :=
  mkPoint (f_sub (px sonarPos) (f_mul (f_of_Z (startBin cfg)) (f_sin currentRad)))
          (f_sub (py sonarPos) (f_mul (f_of_Z (startBin cfg)) (f_cos currentRad))).
Definition beam_dir (currentRad : F) : Point2f F :=
  mkPoint (f_neg (f_sin currentRad)) (f_neg (f_cos currentRad)).
Definition beam_init (sonarPos : Point2f F) (currentRad : F)
    (q : CircularQueue) (f : Found F) : BeamState F :=
  mkBeam (beam_start sonarPos currentRad) run_init (mkWindow 0 (cq_clear q)) f.

(* lines 95-192: one iteration of the beam loop *)
Definition scan_beam (sonarPos : Point2f F) (currentRad : F)
    (q : CircularQueue) (f : Found F) : BeamState F :=
  scan_bins (beam_start sonarPos currentRad) (beam_dir currentRad)
            (beam_init sonarPos currentRad q f) (seqZ 0 nBins).

(* lines 65-71, 82 *)
Definition radBearing : F := f_div (f_mul (bearing cfg) f_pi) (f_of_Z 180).
Definition beamRadIncrement : F :=
  if 1 <? nBeams cfg
  then f_div radBearing (f_of_Z (nBeams cfg - 1))
  else f_mul (f_of_Z 2) radBearing.
Definition sonarPos : Point2f F :=
  mkPoint (f_div (f_of_Z (cols img)) (f_of_Z 2))
          (f_of_Z (rows img + sonVerticalPosition cfg)).

(* line 93: for(unsigned beam = 0; beam < nBeams; beam++, currentRad += ...) *)
Fixpoint scan_beams (n : nat) (currentRad : F) (q : CircularQueue)
    (f : Found F) : Found F :=
  match n with
  | O => f
  | S n' =>
      let st := scan_beam sonarPos currentRad q f in
      scan_beams n' (f_add currentRad beamRadIncrement)
                 (lastBins (window st)) (found st)
  end.

(* lines 84-193 *)
Definition find_peaks : Found F :=
  scan_beams (Z.to_nat (to_unsigned (nBeams cfg)))
             (f_div (f_neg radBearing) (f_of_Z 2))
             (mkQueue (meanWindowSize cfg) [])
             (mkFound [] []).
End Scan.

(** ** Regions, the segment pool and the region extractor *)

(** Modelled from the spec: Segment, Segmentation ([m_seg]) and
    SegmentExtractor ([m_extractor]) are declared and defined outside this
    file. A region has member pixels and a pixel count [N]; the pool hands
    out the reusable handle stored under an index; [resetMask] clears the
    visited mask; [setThreshold] stores the acceptance level;
    [createSegment] grows a region from a seed against the visited mask and
    writes membership and [N] into the handle it is given. How a region is
    grown is left to the instance. *)
Record Segment := mkSegment { N : Z; members : list (Z * Z) }.

Class Extractor (F Mask : Type) := {
  resetMask : Z → Z → Mask → Mask;
  createSegment : Z → Mat → F → F → Mask → Mask * Segment
}.

(* the state reached through the pointers m_seg and m_extractor *)
Record Shared (Mask : Type) := mkShared {
  mask : Mask;
  threshold : Z;
  pool : gmap nat Segment
}.
Arguments mkShared {Mask} _ _ _.
Arguments mask {Mask} _.
Arguments threshold {Mask} _.
Arguments pool {Mask} _.

(* one createSegment call: the handle index it wrote, the threshold in
   force, the seed it was given and the region it produced *)
Record Growth (F : Type) := mkGrowth {
  g_handle : nat;
  g_threshold : Z;
  g_seed : Point2f F;
  g_region : Segment
}.
Arguments mkGrowth {F} _ _ _ _.
Arguments g_handle {F} _.
Arguments g_threshold {F} _.
Arguments g_seed {F} _.
Arguments g_region {F} _.

(* [sg] holds Segment pointers: the pool indices of the handles pushed;
   [grown] is the trace of createSegment calls of this segment() call *)
Record Extraction (F Mask : Type) := mkExtraction {
  shared : Shared Mask;
  segCount : nat;
  sg : list nat;
  grown : list (Growth F)
}.
Arguments mkExtraction {F Mask} _ _ _ _.
Arguments shared {F Mask} _.
Arguments segCount {F Mask} _.
Arguments sg {F Mask} _.
Arguments grown {F Mask} _.

(** operator< of std::pair<int, unsigned> and the order std::sort leaves
    its range in: no element is less than one before it. *)
Definition pair_lt (a b : Z * nat) : Prop :=
  a.1 < b.1 ∨ (¬ b.1 < a.1 ∧ (a.2 < b.2)%nat).
Definition pair_le (a b : Z * nat) : Prop := ¬ pair_lt b a.

Global Instance pair_lt_dec a b : Decision (pair_lt a b).
Proof. unfold pair_lt. apply _. Defined.
Global Instance pair_le_dec a b : Decision (pair_le a b).
Proof. unfold pair_le. apply _. Defined.

(* the contract of std::sort(first, last) on a vector of pairs *)
Definition sorts (srt : list (Z * nat) → list (Z * nat)) : Prop :=
  ∀ l, Sorted pair_le (srt l) ∧ srt l ≡ₚ l.

(* an insertion sort, for comparison with the merge sort *)
Fixpoint insert_pair (a : Z * nat) (l : list (Z * nat)) : list (Z * nat) :=
  match l with
  | [] => [a]
  | b :: t => if decide (pair_le a b) then a :: b :: t else b :: insert_pair a t
  end.
Definition insertion_sort (l : list (Z * nat)) : list (Z * nat) :=
  foldr insert_pair [] l.

Section Extract.
Context `{FloatOps F} `{Extractor F Mask}.
Variable cfg : Config F.
Variable img : Mat.

(* lines 213-233: the body of the extraction loop *)
Definition extract_step (positions : list (Point2f F))
    (e : Extraction F Mask) (peak : Z * nat) : Extraction F Mask :=
  let seg := segCount e in
  let peakPosition :=
    default (mkPoint (f_of_Z 0) (f_of_Z 0)) (positions !! peak.2) in
  let thr := peak.1 in
  let '(mask', region) :=
    createSegment thr img (py peakPosition) (px peakPosition)
                  (mask (shared e)) in
  let shared' := mkShared mask' thr (<[seg := region]> (pool (shared e))) in
  let grown' := grown e ++ [mkGrowth seg thr peakPosition region] in
  if minSampleSize cfg <=? N region
  then mkExtraction shared' (S seg) (sg e ++ [seg]) grown'
  else mkExtraction shared' seg (sg e) grown'.

(* lines 61-240, with the sorting routine as a parameter *)
Definition segment_with (srt : list (Z * nat) → list (Z * nat))
    (sh : Shared Mask) : Extraction F Mask :=
  let f := find_peaks cfg img in
  let sh0 := mkShared (resetMask (rows img) (cols img) (mask sh))
                      (threshold sh) (pool sh) in
  foldl (extract_step (peaksPostions f))
        (mkExtraction sh0 O [] [])
        (srt (peaks f)).

Definition segment (sh : Shared Mask) : Extraction F Mask :=
  segment_with (merge_sort pair_le) sh.

(* the regions behind the pointers of [sg] when segment() returns *)
Definition regions (e : Extraction F Mask) : list (option Segment) :=
  (λ h, pool (shared e) !! h) <$> sg e.
End Extract.

(** ** The bin loop of calibUI (lines 357-453), for comparison *)

Section Calib.
Context `{FloatOps F}.
Variable cfg : Config F.
Variable img : Mat.
Variables binStartPos beamDir : Point2f F.

(* lines 368-369, 376-377: the mean starts from the bin itself *)
Definition calib_meanIntensity (bin_i : Z) (w : Window) : Z :=
  if 0 <? cq_size (lastBins w)
  then ACCIntensity w ÷ cq_size (lastBins w)
  else bin_i.

(* lines 389-409 and 430 *)
Definition calib_track (hmin bin height : Z) (r : Run) : Run :=
  if hmin <? height then
    if negb (onPeak r) then
      mkRun height (to_int bin) height (to_int bin) true
    else if maxHeight r <? height then
      mkRun height (to_int bin) (minHeight r) (minHBin r) true
    else if height <? minHeight r then
      mkRun (maxHeight r) (maxHBin r) height (to_int bin) true
    else r
  else if onPeak r then
    mkRun (maxHeight r) (maxHBin r) (minHeight r) (minHBin r) false
  else r.

Definition calib_scan_bin (st : BeamState F) (bin : Z) : BeamState F :=
  let bin_i := binI img beamDir st in
  let meanI := calib_meanIntensity bin_i (window st) in
  let height := to_int (bin_i - meanI) in
  let run' := calib_track (Hmin cfg) bin height (run st) in
  mkBeam (sample_pos beamDir st)
         run'
         (save_bin (meanWindowSize cfg) bin_i (onPeak run') (window st))
         (emit cfg binStartPos beamDir meanI height (run st) (found st)).
End Calib.

(** ** Runs of a beam, as the spec words them *)




(* the bins (bin, height) of the run that is open after the trace: the
   longest suffix whose heights all exceed the margin *)
Fixpoint open_run (hmin : Z) (acc : list (Z * Z)) (trace : list (Z * Z))
    : list (Z * Z) :=
  match trace with
  | [] => acc
  | bh :: rest =>
      open_run hmin (if hmin <? bh.2 then acc ++ [bh] else []) rest
  end.

Definition list_max (d : Z) (l : list Z) : Z :=
  match l with [] => d | x :: t => foldl Z.max x t end.
Definition list_min (d : Z) (l : list Z) : Z :=
  match l with [] => d | x :: t => foldl Z.min x t end.

(* the earliest bin of the run whose height is [h] *)
Fixpoint first_bin_with (h : Z) (r : list (Z * Z)) : option Z :=
  match r with
  | [] => None
  | bh :: rest => if bh.2 =? h then Some bh.1 else first_bin_with h rest
  end.

(* number of places where a bin above the margin is followed by one that is
   not; [prev] is the flag of the bin before the list *)
Fixpoint closes (prev : bool) (flags : list bool) : nat :=
  match flags with
  | [] => O
  | b :: rest => ((if prev && negb b then 1 else 0) + closes b rest)%nat
  end.

Section Traces.
Context `{FloatOps F}.
Variable cfg : Config F.
Variable img : Mat.
Variables binStartPos beamDir : Point2f F.

(* (bin, peakHeight) for every bin of [bins], scanned from [st] *)
Definition beam_trace (st : BeamState F) (bins : list Z) : list (Z * Z) :=
  zip bins (peakHeight img beamDir <$> bin_states cfg img binStartPos beamDir st bins).

Definition above (bh : Z * Z) : bool := Hmin cfg <? bh.2.

(* the records a scan appends to [peaks] *)
Definition emitted (st : BeamState F) (bins : list Z) : list (Z * nat) :=
  drop (length (peaks (found st)))
       (peaks (found (scan_bins cfg img binStartPos beamDir st bins))).
End Traces.

(** ** An exact instance of the float interface

    Rational arithmetic, exact on every value; it coincides with IEEE single
    precision as long as all values met are small dyadic rationals, which is
    the case for a field of view of 0 degrees (every beam vertical). *)
Definition q_trunc (q : Q) : Z := Qnum q ÷ Z.pos (Qden q).
Definition q_sin (x : Q) : Q :=
  Qred (Qminus x (Qdiv (Qmult x (Qmult x x)) (inject_Z 6))).
Definition q_cos (x : Q) : Q :=
  Qred (Qminus (inject_Z 1) (Qdiv (Qmult x x) (inject_Z 2))).

Global Instance QFloat : FloatOps Q := {|
  f_of_Z := inject_Z;
  f_add a b := Qred (Qplus a b);
  f_sub a b := Qred (Qminus a b);
  f_mul a b := Qred (Qmult a b);
  f_div a b := Qred (Qdiv a b);
  f_neg a := Qred (Qopp a);
  f_sin := q_sin;
  f_cos := q_cos;
  f_pi := Qmake 355 113;
  f_trunc := q_trunc
|}.

(** ** A region extractor to run the loop with *)

(** Modelled from the spec: 8-connected region growth from the seed against
    the visited mask, accepting an unvisited pixel inside the image when its
    intensity exceeds the threshold (the anti-fragmentation distance is 0);
    [N] is the number of member pixels. *)
Definition neighbours8 (p : Z * Z) : list (Z * Z) :=
  let '(r, c) := p in
  [(r - 1, c - 1); (r - 1, c); (r - 1, c + 1);
   (r, c - 1); (r, c + 1);
   (r + 1, c - 1); (r + 1, c); (r + 1, c + 1)].

Definition inside (img : Mat) (p : Z * Z) : bool :=
  bool_decide (0 ≤ p.1 < rows img ∧ 0 ≤ p.2 < cols img).

Fixpoint flood (fuel : nat) (img : Mat) (thr : Z) (todo : list (Z * Z))
    (visited acc : list (Z * Z)) : list (Z * Z) * list (Z * Z) :=
  match fuel with
  | O => (visited, acc)
  | S fuel' =>
      match todo with
      | [] => (visited, acc)
      | p :: rest =>
          if inside img p && negb (bool_decide (p ∈ visited))
             && (thr <? mat_at img p.1 p.2)
          then flood fuel' img thr (rest ++ neighbours8 p) (p :: visited) (acc ++ [p])
          else flood fuel' img thr rest visited acc
      end
  end.

Definition grow (thr : Z) (img : Mat) (y x : Q) (visited : list (Z * Z))
    : list (Z * Z) * Segment :=
  let '(visited', reg) :=
    flood (S (9 * Z.to_nat (rows img * cols img))) img thr
          [(q_trunc y, q_trunc x)] visited [] in
  (visited', mkSegment (Z.of_nat (length reg)) reg).

Global Instance FloodExtractor : Extractor Q (list (Z * Z)) := {|
  resetMask _ _ _ := [];
  createSegment := grow
|}.

(** ** Test inputs: one vertical beam *)

(* nBeams = 1 and a field of view of 0: one beam straight up the middle
   column; startBin = 1, sonVerticalPosition = 1 *)
Definition vertical (hmin minSample wsize : Z) : Config Q :=
  mkConfig 1 1 hmin (inject_Z 0) 1 minSample wsize.

(* an image of three columns whose middle column holds, from the bottom row
   upwards, the given intensities; bin b reads the b-th of them. Row 0 and
   the outer columns hold [bg]. *)
Definition column_image (bg : Z) (bins : list Z) : Mat :=
  mat_of_rows ((λ v, [bg; v; bg]) <$> (bg :: reverse bins)).

Definition fresh : Shared (list (Z * Z)) := mkShared [] 0 ∅.

(* the configuration the constructor sets up (lines 53-56) *)
Definition default_config : Config Q :=
  mkConfig 720 20 110 (inject_Z 130) 1 10 5.

(* the single beam of a [vertical] configuration, as segment() sets it up *)
Definition vertical_start (cfg : Config Q) (img : Mat) : BeamState Q :=
  beam_init cfg (sonarPos cfg img) (f_div (f_neg (radBearing cfg)) (f_of_Z 2))
            (mkQueue (meanWindowSize cfg) []) (mkFound [] []).
Definition vertical_origin (cfg : Config Q) (img : Mat) : Point2f Q :=
  beam_start cfg (sonarPos cfg img) (f_div (f_neg (radBearing cfg)) (f_of_Z 2)).
Definition vertical_dir (cfg : Config Q) : Point2f Q :=
  beam_dir (f_div (f_neg (radBearing cfg)) (f_of_Z 2)).

(* flat background 50 with one run of five bins at 90 *)
Definition flat_run_image : Mat :=
  column_image 50 [50; 50; 50; 90; 90; 90; 90; 90; 50; 50; 50].
Definition flat_run_config : Config Q := vertical 20 10 3.

(* dark background with a run 300, 400, 500, 350 and a lone bin at 600 *)
Definition two_peak_image : Mat :=
  column_image 0 [0; 0; 300; 400; 500; 350; 0; 0; 600; 0].
Definition two_peak_config : Config Q := vertical 110 2 5.
Definition two_peak_scan (bins : list Z) : BeamState Q :=
  scan_bins two_peak_config two_peak_image
            (vertical_origin two_peak_config two_peak_image)
            (vertical_dir two_peak_config)
            (vertical_start two_peak_config two_peak_image) bins.

(* dark background with two lone bright bins; minSampleSize exceeds the
   21 pixels of the image *)
Definition small_peaks_image : Mat :=
  column_image 0 [0; 300; 0; 400; 0; 0].
Definition small_peaks_config : Config Q := vertical 110 100 5.

(** ** What the window maintains *)

Definition window_sum (l : list Z) : Z := foldr Z.add 0 l.

(* with a queue of capacity meanWindowSize: the samples are 16-bit values,
   and ACCIntensity is their sum as an int; a window of capacity 0 or less
   stays empty *)
Definition window_ok (w_size : Z) (w : Window) : Prop :=
  cq_capacity (lastBins w) = w_size
  ∧ Forall (λ v, 0 ≤ v < 2 ^ 16) (cq_items (lastBins w))
  ∧ ((w_size ≤ 0 ∧ cq_items (lastBins w) = [])
     ∨ (0 < w_size
        ∧ cq_size (lastBins w) ≤ w_size
        ∧ ACCIntensity w = to_int (window_sum (cq_items (lastBins w))))).

(** ** What the extraction loop maintains *)

(* the test of line 223 *)
Definition kept {F} (cfg : Config F) (s : Segment) : Prop := minSampleSize cfg ≤ N s.

Global Instance kept_dec {F} (cfg : Config F) s : Decision (kept cfg s).
Proof. unfold kept. apply _. Defined.

Definition extraction_inv {F Mask} (cfg : Config F) (e : Extraction F Mask) : Prop :=
  segCount e = length (filter (kept cfg) (g_region <$> grown e))
  ∧ sg e = seq 0 (segCount e)
  ∧ (λ h, pool (shared e) !! h) <$> sg e
    = Some <$> filter (kept cfg) (g_region <$> grown e)
  ∧ sg e = g_handle <$> filter (λ g, kept cfg (g_region g)) (grown e)
  ∧ ∀ i g, grown e !! i = Some g →
      g_handle g = length (filter (kept cfg) (take i (g_region <$> grown e))).

(** ** The samples of a beam *)

Section Samples.
Context `{FloatOps F}.
Variable cfg : Config F.
Variable img : Mat.
Variables binStartPos beamDir : Point2f F.

(* binI for every bin of [bins], scanned from [st] *)
Definition beam_samples (st : BeamState F) (bins : list Z) : list Z :=
  binI img beamDir <$> bin_states cfg img binStartPos beamDir st bins.
End Samples.

(** ** The bins of a beam against the image *)

Section Ray.
Context `{FloatOps F}.
Variable cfg : Config F.
Variable img : Mat.
Variables binStartPos beamDir : Point2f F.



(* [n] iterations of the body of the bin loop, for bin = 0, 1, ..., n - 1 *)
Fixpoint bin_iterations (n : nat) (st : BeamState F) : BeamState F :=
  match n with
  | O => st
  | S k => scan_bin cfg img binStartPos beamDir (bin_iterations k st) (Z.of_nat k)
  end.
End Ray.





(** ** load (lines 242-287) *)

(** Modelled from the spec: ConfigLoader is declared outside this file; its
    lookups take a section and a key and report success or failure, giving
    the value on success. *)
Record ConfigLoader (F : Type) := mkLoader {
  getInt : string → string → option Z;
  getFloat : string → string → option F
}.
Arguments mkLoader {F} _ _.
Arguments getInt {F} _ _ _.
Arguments getFloat {F} _ _ _.

Definition section_name : string := "ThetaRhoMeanPeakSegSearch".

(* if(config.getInt(section, key, &vi)) member = vi; *)
Definition int_or {F} (config : ConfigLoader F) (sec key : string) (old : Z) : Z :=
  match getInt config sec key with Some vi => vi | None => old end.
Definition float_or {F} (config : ConfigLoader F) (sec key : string) (old : F) : F :=
  match getFloat config sec key with Some vf => vf | None => old end.

Definition load {F} (config : ConfigLoader F) (cfg : Config F) : Config F :=
  let minSampleSize1 := int_or config "General" "MinSampleSize" (minSampleSize cfg) in
  let sonVerticalPosition1 :=
    int_or config section_name "sonVerticalPosition" (sonVerticalPosition cfg) in
  let minSampleSize2 := int_or config section_name "minSampleSize" minSampleSize1 in
  let nBeams1 := int_or config section_name "nBeams" (nBeams cfg) in
  let startBin1 := int_or config section_name "startBin" (startBin cfg) in
  let Hmin1 := int_or config section_name "Hmin" (Hmin cfg) in
  let bearing1 := float_or config section_name "bearing" (bearing cfg) in
  let meanWindowSize1 :=
    int_or config section_name "meanWindowSize" (meanWindowSize cfg) in
  mkConfig nBeams1 startBin1 Hmin1 bearing1 sonVerticalPosition1
           minSampleSize2 meanWindowSize1.

(* a loader over a list of (section, key, value) entries, first match wins *)
Definition loader_of (ints : list (string * string * Z)) : ConfigLoader Q :=
  mkLoader
    (λ sec key, (λ ie, ie.2.2) <$> list_find (λ e, e.1 = (sec, key)) ints)
    (λ _ _, None).

(** ** calibUI (lines 289-565) *)

(* the comparisons of floats that the key handling makes *)
Class FloatOrd (F : Type) := { f_ltb : F → F → bool }.

(* what lives across the iterations of while(true): the members Hmin and
   meanWindowSize inside [c_cfg], currentRad, lastBins, and the state behind
   m_seg and m_extractor *)
Record CalibState (F Mask : Type) := mkCalib {
  c_cfg : Config F;
  c_currentRad : F;
  c_lastBins : CircularQueue;
  c_shared : Shared Mask
}.
Arguments mkCalib {F Mask} _ _ _ _.
Arguments c_cfg {F Mask} _.
Arguments c_currentRad {F Mask} _.
Arguments c_lastBins {F Mask} _.
Arguments c_shared {F Mask} _.

Definition with_Hmin {F} (cfg : Config F) (v : Z) : Config F :=
  mkConfig (nBeams cfg) (startBin cfg) v (bearing cfg)
           (sonVerticalPosition cfg) (minSampleSize cfg) (meanWindowSize cfg).
Definition with_meanWindowSize {F} (cfg : Config F) (v : Z) : Config F :=
  mkConfig (nBeams cfg) (startBin cfg) (Hmin cfg) (bearing cfg)
           (sonVerticalPosition cfg) (minSampleSize cfg) v.

Section CalibUI.
Context `{FloatOps F} `{FloatOrd F} `{Extractor F Mask}.
Variable img : Mat.

(* lines 333-453: the scan of the selected beam; [peaks] and
   [peaksPostions] are empty when an iteration starts *)
Definition calib_scan_beam (cfg : Config F) (currentRad : F)
    (q : CircularQueue) : BeamState F :=
  foldl (calib_scan_bin cfg img (beam_start cfg (sonarPos cfg img) currentRad)
                        (beam_dir currentRad))
        (beam_init cfg (sonarPos cfg img) currentRad q (mkFound [] []))
        (seqZ 0 (nBins cfg img)).

(* lines 460-482: every peak is grown into the handle m_seg->segment(0) *)
Definition calib_extract_step (positions : list (Point2f F))
    (sh : Shared Mask) (peak : Z * nat) : Shared Mask :=
  let peakPosition :=
    default (mkPoint (f_of_Z 0) (f_of_Z 0)) (positions !! peak.2) in
  let '(mask', region) :=
    createSegment peak.1 img (py peakPosition) (px peakPosition) (mask sh) in
  mkShared mask' peak.1 (<[O := region]> (pool sh)).

(* lines 326-495: one pass of the loop body up to waitKey *)
Definition calib_pass (s : CalibState F Mask) : CalibState F Mask :=
  let sh0 := mkShared (resetMask (rows img) (cols img) (mask (c_shared s)))
                      (threshold (c_shared s)) (pool (c_shared s)) in
  let st := calib_scan_beam (c_cfg s) (c_currentRad s) (c_lastBins s) in
  let sh1 := foldl (calib_extract_step (peaksPostions (found st))) sh0
                   (merge_sort pair_le (peaks (found st))) in
  mkCalib (c_cfg s) (c_currentRad s) (lastBins (window st)) sh1.

(* 65.f*M_PI/180.f, -65.f*M_PI/180.f and 1.f*M_PI/180.f *)
Definition deg (d : Z) : F := f_div (f_mul (f_of_Z d) f_pi) (f_of_Z 180).

(* lines 498-562: the switch on the key; None is the return of Enter and
   ESC. Hmin and meanWindowSize are ints, so += and -= wrap like every other
   int operation. ResizeAndClear leaves an empty queue of the new
   capacity. *)
Definition calib_key (c : Z) (s : CalibState F Mask) : option (CalibState F Mask) :=
  let cfg := c_cfg s in
  if c =? 97 then        (* 'a' *)
    Some (if f_ltb (c_currentRad s) (deg 65)
          then mkCalib cfg (f_add (c_currentRad s) (deg 1)) (c_lastBins s) (c_shared s)
          else s)
  else if c =? 100 then  (* 'd' *)
    Some (if f_ltb (deg (-65)) (c_currentRad s)
          then mkCalib cfg (f_sub (c_currentRad s) (deg 1)) (c_lastBins s) (c_shared s)
          else s)
  else if c =? 119 then  (* 'w' *)
    Some (mkCalib (with_Hmin cfg (to_int (Hmin cfg + 2))) (c_currentRad s)
                  (c_lastBins s) (c_shared s))
  else if c =? 115 then  (* 's' *)
    Some (if 2 <=? Hmin cfg
          then mkCalib (with_Hmin cfg (to_int (Hmin cfg - 2))) (c_currentRad s)
                       (c_lastBins s) (c_shared s)
          else s)
  else if c =? 114 then  (* 'r' *)
    Some (mkCalib (with_meanWindowSize cfg (to_int (meanWindowSize cfg + 1)))
                  (c_currentRad s)
                  (mkQueue (to_int (meanWindowSize cfg + 1)) []) (c_shared s))
  else if c =? 102 then  (* 'f' *)
    Some (if 0 <? meanWindowSize cfg
          then mkCalib (with_meanWindowSize cfg (to_int (meanWindowSize cfg - 1)))
                       (c_currentRad s)
                       (mkQueue (to_int (meanWindowSize cfg - 1)) []) (c_shared s)
          else s)
  else if (c =? 10) || (c =? 13) || (c =? 27) then None
  else Some s.           (* 'b', 'p' and every other key *)

(* lines 324-564 over the keys waitKey delivers; when the keys run out the
   loop has made its pass and waits in waitKey *)
Fixpoint calib_loop (keys : list Z) (s : CalibState F Mask) : CalibState F Mask :=
  match keys with
  | [] => calib_pass s
  | c :: rest =>
      let s1 := calib_pass s in
      match calib_key c s1 with
      | None => s1
      | Some s2 => calib_loop rest s2
      end
  end.

(* lines 291-322 *)
Definition calibUI (cfg : Config F) (sh : Shared Mask) (keys : list Z)
    : CalibState F Mask :=
  calib_loop keys
    (mkCalib cfg (f_div (f_neg (radBearing cfg)) (f_of_Z 2))
             (mkQueue (meanWindowSize cfg) []) sh).
End CalibUI.

Global Instance QOrd : FloatOrd Q :=
  {| f_ltb a b := if Qlt_le_dec a b then true else false |}.

(* an image holding the same sample everywhere, also outside its bounds *)
Definition uniform_image (n_rows n_cols v : Z) : Mat := mkMat n_rows n_cols (λ _ _, v).

(* two runs that read the same: maxHeight and maxHBin are looked at only
   while a run is open *)
Definition run_agree (r1 r2 : Run) : Prop :=
  onPeak r1 = onPeak r2
  ∧ minHeight r1 = minHeight r2 ∧ minHBin r1 = minHBin r2
  ∧ (onPeak r1 = true → maxHeight r1 = maxHeight r2 ∧ maxHBin r1 = maxHBin r2).

Definition state_agree {F} (s1 s2 : BeamState F) : Prop :=
  binPos s1 = binPos s2 ∧ window s1 = window s2 ∧ found s1 = found s2
  ∧ run_agree (run s1) (run s2).

(* the values of an int *)
Definition is_int (z : Z) : Prop := - 2 ^ 31 ≤ z < 2 ^ 31.

(* what the keys of calibUI can do to the members, [cfg0] being the
   configuration calibUI started from *)
Definition tuned {F Mask} (cfg0 : Config F) (s : CalibState F Mask) : Prop :=
  Z.even (Hmin (c_cfg s)) = Z.even (Hmin cfg0)
  ∧ cq_capacity (c_lastBins s) = meanWindowSize (c_cfg s)
  ∧ nBeams (c_cfg s) = nBeams cfg0
  ∧ startBin (c_cfg s) = startBin cfg0
  ∧ bearing (c_cfg s) = bearing cfg0
  ∧ sonVerticalPosition (c_cfg s) = sonVerticalPosition cfg0
  ∧ minSampleSize (c_cfg s) = minSampleSize cfg0.

Section NewSeeds.
Context `{FloatOps F}.
Variable cfg : Config F.
Variable img : Mat.
Variables binStartPos beamDir : Point2f F.

(* the seeds a scan appends to [peaksPostions] *)
Definition new_seeds (st : BeamState F) (bins : list Z) : list (Point2f F) :=
  drop (length (peaksPostions (found st)))
       (peaksPostions (found (scan_bins cfg img binStartPos beamDir st bins))).
End NewSeeds.

(** * Properties *)

(** ** Wrap-around *)

Lemma to_int_range z : - 2 ^ 31 ≤ to_int z < 2 ^ 31.
Proof. unfold to_int. pose proof (Z.mod_pos_bound (z + 2 ^ 31) (2 ^ 32)). lia. Qed.

Lemma to_int_small z : - 2 ^ 31 ≤ z < 2 ^ 31 → to_int z = z.
Proof. intros Hz. unfold to_int. rewrite Z.mod_small; lia. Qed.

Lemma to_int_le z : - 2 ^ 31 ≤ z → to_int z ≤ z.
Proof.
  intros Hz. unfold to_int.
  pose proof (Z.mod_le (z + 2 ^ 31) (2 ^ 32)). lia.
Qed.

Lemma to_int_even z : Z.even (to_int z) = Z.even z.
Proof.
  unfold to_int. rewrite Z.mod_eq by lia.
  rewrite !Z.even_sub, Z.even_add, Z.even_mul.
  change (Z.even (2 ^ 31)) with true. change (Z.even (2 ^ 32)) with true.
  by destruct (Z.even z).
Qed.

(** ** Runs of flags *)





(** ** Extrema of a run *)

Lemma list_max_snoc d l x :
  list_max d (l ++ [x]) = match l with [] => x | _ => Z.max (list_max d l) x end.
Proof. destruct l as [|a t]; simpl; [done|]. by rewrite foldl_app. Qed.

Lemma list_min_snoc d l x :
  list_min d (l ++ [x]) = match l with [] => x | _ => Z.min (list_min d l) x end.
Proof. destruct l as [|a t]; simpl; [done|]. by rewrite foldl_app. Qed.

Lemma foldl_max_ge a l : a ≤ foldl Z.max a l ∧ Forall (λ x, x ≤ foldl Z.max a l) l.
Proof.
  revert a. induction l as [|x t IH]; intros a; simpl; [split; [lia|constructor]|].
  destruct (IH (Z.max a x)) as [H1 H2]. split; [lia|].
  constructor; [lia|done].
Qed.

Lemma foldl_min_le a l : foldl Z.min a l ≤ a ∧ Forall (λ x, foldl Z.min a l ≤ x) l.
Proof.
  revert a. induction l as [|x t IH]; intros a; simpl; [split; [lia|constructor]|].
  destruct (IH (Z.min a x)) as [H1 H2]. split; [lia|].
  constructor; [lia|done].
Qed.

Lemma list_max_ge d l : Forall (λ x, x ≤ list_max d l) l.
Proof.
  destruct l as [|a t]; simpl; [constructor|].
  destruct (foldl_max_ge a t). by constructor.
Qed.

Lemma list_min_le d l : Forall (λ x, list_min d l ≤ x) l.
Proof.
  destruct l as [|a t]; simpl; [constructor|].
  destruct (foldl_min_le a t). by constructor.
Qed.

Lemma first_bin_with_snoc h r x :
  first_bin_with h (r ++ [x]) =
  match first_bin_with h r with
  | Some b => Some b
  | None => if x.2 =? h then Some x.1 else None
  end.
Proof.
  induction r as [|bh t IH]; simpl; [done|].
  destruct (bh.2 =? h); done.
Qed.

Lemma first_bin_with_none h (r : list (Z * Z)) :
  Forall (λ x, x ≠ h) r.*2 → first_bin_with h r = None.
Proof.
  induction r as [|bh t IH]; simpl; [done|].
  intros Hall. apply Forall_cons in Hall as [Hne Hall].
  destruct (Z.eqb_spec bh.2 h); [done|]. by apply IH.
Qed.

Lemma open_run_snoc hmin acc tr x :
  open_run hmin acc (tr ++ [x]) =
  if hmin <? x.2 then open_run hmin acc tr ++ [x] else [].
Proof.
  revert acc. induction tr as [|bh t IH]; intros acc; simpl; [done|].
  by rewrite IH.
Qed.

(** ** The bin loop *)

Lemma onPeak_track hmin bin h r : onPeak (track hmin bin h r) = (hmin <? h).
Proof.
  unfold track. destruct (hmin <? h), (onPeak r) eqn:Hon; simpl; try done.
  repeat case_match; simpl; done.
Qed.

Section ScanFacts.
Context `{FloatOps F}.
Variable cfg : Config F.
Variable img : Mat.
Variables binStartPos beamDir : Point2f F.

Abbreviation step := (scan_bin cfg img binStartPos beamDir).
Abbreviation scan := (scan_bins cfg img binStartPos beamDir).
Abbreviation states := (bin_states cfg img binStartPos beamDir).
Abbreviation trace := (beam_trace cfg img binStartPos beamDir).
Abbreviation height := (peakHeight img beamDir).

Lemma scan_cons st b l : scan st (b :: l) = scan (step st b) l.
Proof. done. Qed.

Lemma scan_snoc st l b : scan st (l ++ [b]) = step (scan st l) b.
Proof. unfold scan_bins. by rewrite foldl_app. Qed.

Lemma bin_states_length st l : length (states st l) = length l.
Proof. revert st. induction l as [|b t IH]; intros st; simpl; [done|]. by rewrite IH. Qed.

Lemma bin_states_snoc st l b : states st (l ++ [b]) = states st l ++ [scan st l].
Proof.
  revert st. induction l as [|a t IH]; intros st; simpl; [done|].
  by rewrite IH.
Qed.

Lemma beam_trace_length st l : length (trace st l) = length l.
Proof.
  unfold beam_trace. rewrite length_zip_with, length_fmap, bin_states_length. lia.
Qed.

Lemma beam_trace_cons st b l :
  trace st (b :: l) = (b, height st) :: trace (step st b) l.
Proof. done. Qed.

Lemma beam_trace_snoc st l b :
  trace st (l ++ [b]) = trace st l ++ [(b, height (scan st l))].
Proof.
  unfold beam_trace. rewrite bin_states_snoc, fmap_app. simpl.
  rewrite zip_with_app; [done|].
  by rewrite length_fmap, bin_states_length.
Qed.

Lemma onPeak_step st b : onPeak (run (step st b)) = above cfg (b, height st).
Proof. unfold scan_bin, above. simpl. apply onPeak_track. Qed.

(* what one bin adds to [peaks] *)
Lemma peaks_step st b :
  peaks (found (step st b)) =
  peaks (found st) ++
    (if onPeak (run st) && negb (above cfg (b, height st))
     then [(to_int (meanIntensity (window st) + minHeight (run st)),
            length (peaksPostions (found st)))]
     else []).
Proof.
  unfold scan_bin, emit, above. simpl.
  destruct (Hmin cfg <? height st), (onPeak (run st)); simpl;
    by rewrite ?app_nil_r.
Qed.

Lemma positions_step st b :
  peaksPostions (found (step st b)) =
  peaksPostions (found st) ++
    (if onPeak (run st) && negb (above cfg (b, height st))
     then [pt_add binStartPos (pt_mul_int beamDir (maxHBin (run st)))]
     else []).
Proof.
  unfold scan_bin, emit, above. simpl.
  destruct (Hmin cfg <? height st), (onPeak (run st)); simpl;
    by rewrite ?app_nil_r.
Qed.

Lemma peaks_scan_app st l : ∃ new, peaks (found (scan st l)) = peaks (found st) ++ new.
Proof.
  revert st. induction l as [|b t IH]; intros st.
  - exists []. simpl. by rewrite app_nil_r.
  - destruct (IH (step st b)) as [new E]. rewrite scan_cons, E, peaks_step.
    eexists. by rewrite <- app_assoc.
Qed.

Lemma peaks_scan st l :
  peaks (found (scan st l)) = peaks (found st) ++ emitted cfg img binStartPos beamDir st l.
Proof.
  unfold emitted. destruct (peaks_scan_app st l) as [new ->].
  by rewrite drop_app_length.
Qed.

Lemma length_emitted st l :
  length (emitted cfg img binStartPos beamDir st l) =
  closes (onPeak (run st)) (above cfg <$> trace st l).
Proof.
  revert st. induction l as [|b t IH]; intros st.
  - unfold emitted. simpl. by rewrite drop_all.
  - rewrite beam_trace_cons. simpl. rewrite <- (onPeak_step st b), <- IH.
    pose proof (peaks_scan st (b :: t)) as E1.
    pose proof (peaks_scan (step st b) t) as E2.
    rewrite scan_cons, E2, peaks_step, <- app_assoc in E1.
    apply app_inv_head in E1. rewrite <- E1, length_app, onPeak_step.
    destruct (onPeak (run st)), (above cfg (b, height st)); simpl; lia.
Qed.
End ScanFacts.

(** ** The run variables against the run they summarise *)

Section RunFacts.
Context `{FloatOps F}.
Variable cfg : Config F.
Variable img : Mat.
Variables binStartPos beamDir : Point2f F.

Abbreviation step' := (scan_bin cfg img binStartPos beamDir).
Abbreviation scan' := (scan_bins cfg img binStartPos beamDir).
Abbreviation trace' := (beam_trace cfg img binStartPos beamDir).
Abbreviation height' := (peakHeight img beamDir).
Abbreviation run_of st0 l := (open_run (Hmin cfg) [] (trace' st0 l)).

Lemma run_of_snoc st0 l b :
  run_of st0 (l ++ [b]) =
  if Hmin cfg <? height' (scan' st0 l)
  then run_of st0 l ++ [(b, height' (scan' st0 l))]
  else [].
Proof. by rewrite beam_trace_snoc, open_run_snoc. Qed.

Lemma run_invariant st0 l :
  onPeak (run st0) = false →
  let r := run_of st0 l in
  let st := scan' st0 l in
  onPeak (run st) = bool_decide (r ≠ []) ∧
  (r ≠ [] →
     maxHeight (run st) = list_max 0 r.*2 ∧
     minHeight (run st) = list_min 0 r.*2 ∧
     to_int <$> first_bin_with (maxHeight (run st)) r = Some (maxHBin (run st)) ∧
     to_int <$> first_bin_with (minHeight (run st)) r = Some (minHBin (run st))).
Proof.
  intros H0. induction l as [|b l IH] using rev_ind.
  - simpl. rewrite H0. done.
  - simpl in *. rewrite run_of_snoc, scan_snoc.
    destruct IH as [IHon IHr].
    set (st := scan' st0 l) in *. set (r := run_of st0 l) in *.
    set (h := height' st).
    split.
    { rewrite onPeak_step. unfold above. simpl. fold h.
      destruct (Hmin cfg <? h).
      - symmetry. apply bool_decide_eq_true_2. by destruct r.
      - symmetry. apply bool_decide_eq_false_2. by intros []. }
    destruct (Z.ltb_spec (Hmin cfg) h) as [Hab|Hab]; [|done].
    intros _. unfold scan_bin; simpl. fold h. unfold track.
    rewrite (proj2 (Z.ltb_lt _ _) Hab).
    destruct (onPeak (run st)) eqn:Hon; simpl.
    + symmetry in IHon. apply bool_decide_eq_true in IHon.
      destruct (IHr IHon) as (Emax & Emin & Bmax & Bmin).
      pose proof (list_max_ge 0 r.*2) as Hge.
      pose proof (list_min_le 0 r.*2) as Hle.
      rewrite <- Emax in Hge. rewrite <- Emin in Hle.
      assert (Hmm : minHeight (run st) ≤ maxHeight (run st)).
      { destruct r as [|x t]; [done|]. simpl in Hge, Hle.
        apply Forall_cons in Hge as [? _]. apply Forall_cons in Hle as [? _]. lia. }
      rewrite fmap_app. change ([(b, h)].*2) with [h].
      rewrite list_max_snoc, list_min_snoc.
      destruct (r.*2) as [|x t] eqn:Er; [by destruct r|]. rewrite <- Er in *.
      rewrite <- Emax, <- Emin.
      destruct (Z.ltb_spec (maxHeight (run st)) h) as [Hgt|Hngt]; simpl.
      * rewrite !first_bin_with_snoc. simpl. rewrite Z.eqb_refl.
        rewrite (first_bin_with_none h r).
        2:{ eapply Forall_impl; [exact Hge|]. simpl. intros; lia. }
        destruct (first_bin_with (minHeight (run st)) r) eqn:Ef; [|done].
        repeat split; [lia|lia|done].
      * destruct (Z.ltb_spec h (minHeight (run st))) as [Hlt|Hnlt]; simpl.
        -- rewrite !first_bin_with_snoc. simpl. rewrite Z.eqb_refl.
           rewrite (first_bin_with_none h r).
           2:{ eapply Forall_impl; [exact Hle|]. simpl. intros; lia. }
           destruct (first_bin_with (maxHeight (run st)) r) eqn:Ef; [|done].
           repeat split; [lia|lia|done].
        -- rewrite !first_bin_with_snoc.
           destruct (first_bin_with (maxHeight (run st)) r) eqn:Ef1; [|done].
           destruct (first_bin_with (minHeight (run st)) r) eqn:Ef2; [|done].
           repeat split; [lia|lia|done|done].
    + symmetry in IHon. apply bool_decide_eq_false in IHon.
      assert (Er : r = []) by (destruct r; [done|]; exfalso; by apply IHon).
      rewrite Er. simpl. rewrite Z.eqb_refl. done.
Qed.
End RunFacts.

(* what a bin appends to [peaks], with the [int] addition of line 153 *)
Lemma threshold_of_record_int `{FloatOps F} (cfg : Config F) (img : Mat)
    (sonar : Point2f F) (rad : F) (q : CircularQueue) (f : Found F)
    (before : list Z) (bin : Z) :
  let origin := beam_start cfg sonar rad in
  let dir := beam_dir rad in
  let st0 := beam_init cfg sonar rad q f in
  let st := scan_bins cfg img origin dir st0 before in
  let r := open_run (Hmin cfg) [] (beam_trace cfg img origin dir st0 before) in
  let closing := bool_decide (r ≠ []) && bool_decide (peakHeight img dir st ≤ Hmin cfg) in
  peaks (found (scan_bin cfg img origin dir st bin)) =
  peaks (found st) ++
    (if closing
     then [(to_int (meanIntensity (window st) + list_min 0 r.*2),
            length (peaksPostions (found st)))]
     else []).
Proof.
  intros origin dir st0 st r closing.
  rewrite peaks_step. f_equal.
  destruct (run_invariant cfg img origin dir st0 before eq_refl) as [Hon Hr].
  fold st r in Hon, Hr. unfold closing, above. simpl. rewrite Hon.
  destruct (decide (r ≠ [])) as [Hne|He].
  - destruct (Hr Hne) as (_ & -> & _).
    rewrite (bool_decide_eq_true_2 _ Hne). simpl.
    destruct (Z.ltb_spec (Hmin cfg) (peakHeight img dir st)).
    + rewrite bool_decide_eq_false_2; [done|lia].
    + rewrite bool_decide_eq_true_2; [done|lia].
  - by rewrite (bool_decide_eq_false_2 _ He).
Qed.

(** ** The window and the size of the mean *)

Lemma to_int_idem_add a b : to_int (to_int a + b) = to_int (a + b).
Proof.
  unfold to_int. f_equal.
  replace ((a + 2 ^ 31) mod 2 ^ 32 - 2 ^ 31 + b + 2 ^ 31)
    with ((a + 2 ^ 31) mod 2 ^ 32 + b) by lia.
  rewrite Zplus_mod_idemp_l. f_equal. lia.
Qed.

Lemma window_sum_app l k : window_sum (l ++ k) = window_sum l + window_sum k.
Proof. induction l as [|x t IH]; simpl; [done|]. rewrite IH. lia. Qed.

Lemma window_sum_bound l :
  Forall (λ v, 0 ≤ v < 2 ^ 16) l → 0 ≤ window_sum l ≤ (2 ^ 16 - 1) * Z.of_nat (length l).
Proof.
  induction 1 as [|x t Hx _ IH]; simpl; [lia|].
  rewrite Nat2Z.inj_succ. lia.
Qed.

Lemma mat_at_range img r c : 0 ≤ mat_at img r c < 2 ^ 16.
Proof. unfold mat_at, to_ushort. apply Z.mod_pos_bound. lia. Qed.

Lemma save_bin_ok w_size v on_peak w :
  0 ≤ v < 2 ^ 16 → window_ok w_size w → window_ok w_size (save_bin w_size v on_peak w).
Proof.
  intros Hv (Hcap & Hall & Hcase). unfold save_bin.
  destruct on_peak; simpl; [done|].
  destruct w as [acc [cap items]]. simpl in *. subst cap.
  unfold cq_push, cq_pop, cq_size, cq_front in *. simpl in *.
  destruct Hcase as [[Hw ->]|(Hw & Hlen & Hacc)]; simpl.
  - rewrite (proj2 (Z.leb_le _ _)) by lia. simpl.
    rewrite (proj2 (Z.leb_le _ _)) by lia. simpl.
    rewrite (proj2 (Z.ltb_ge _ _)) by lia. simpl.
    split; [done|]. split; [done|]. left. done.
  - destruct (Z.leb_spec w_size (Z.of_nat (length items))) as [Hfull|Hroom]; simpl.
    + destruct items as [|x t]; simpl in *; [lia|].
      apply Forall_cons in Hall as [Hx Ht].
      rewrite (proj2 (Z.leb_gt _ _)) by lia. simpl.
      rewrite (proj2 (Z.ltb_lt _ _)) by lia. simpl.
      split; [done|]. split; [apply Forall_app; split; [done|by constructor]|].
      right. unfold cq_size. simpl. rewrite length_app, window_sum_app. simpl.
      split; [done|]. split; [lia|].
      rewrite Hacc, to_int_idem_add.
      replace (to_int (x + window_sum t) - x + v)
        with (to_int (x + window_sum t) + (v - x)) by lia.
      rewrite to_int_idem_add. f_equal. lia.
    + rewrite (proj2 (Z.leb_gt _ _)) by lia. simpl.
      rewrite (proj2 (Z.ltb_lt _ _)) by lia. simpl.
      split; [done|]. split; [apply Forall_app; split; [done|by constructor]|].
      right. unfold cq_size. simpl. rewrite length_app, window_sum_app. simpl.
      split; [done|]. split; [lia|].
      rewrite Hacc, to_int_idem_add. f_equal. lia.
Qed.

Lemma meanIntensity_bound w_size w :
  window_ok w_size w → - 2 ^ 16 ≤ meanIntensity w ≤ 2 ^ 16.
Proof.
  intros (_ & Hall & Hcase). unfold meanIntensity.
  destruct (Z.ltb_spec 0 (cq_size (lastBins w))) as [Hpos|_]; [|lia].
  set (n := cq_size (lastBins w)) in *.
  destruct Hcase as [[_ He]|(_ & _ & Hacc)].
  { unfold n, cq_size in Hpos. rewrite He in Hpos. simpl in Hpos. lia. }
  pose proof (window_sum_bound _ Hall) as Hb. fold (cq_size (lastBins w)) in Hb. fold n in Hb.
  pose proof (to_int_range (window_sum (cq_items (lastBins w)))) as Hr.
  assert (Habs : Z.abs (ACCIntensity w) ≤ 2 ^ 16 * n).
  { rewrite Hacc.
    destruct (decide (window_sum (cq_items (lastBins w)) < 2 ^ 31)) as [Hs|Hl].
    - rewrite to_int_small by lia. lia.
    - lia. }
  assert (Hq : Z.abs (ACCIntensity w ÷ n) ≤ 2 ^ 16).
  { rewrite <- (Z.abs_eq n) at 1 by lia. rewrite <- Z.quot_abs by lia.
    rewrite Z.quot_div_nonneg by lia.
    apply Z.div_le_upper_bound; lia. }
  lia.
Qed.

Section WindowFacts.
Context `{FloatOps F}.
Variable cfg : Config F.
Variable img : Mat.
Variables binStartPos beamDir : Point2f F.

Lemma window_ok_step st bin :
  window_ok (meanWindowSize cfg) (window st) →
  window_ok (meanWindowSize cfg) (window (scan_bin cfg img binStartPos beamDir st bin)).
Proof. intros Hw. unfold scan_bin. simpl. apply save_bin_ok; [apply mat_at_range|done]. Qed.

Lemma window_ok_scan st bins :
  window_ok (meanWindowSize cfg) (window st) →
  window_ok (meanWindowSize cfg) (window (scan_bins cfg img binStartPos beamDir st bins)).
Proof.
  revert st. induction bins as [|b t IH]; intros st Hw; [done|].
  rewrite scan_cons. apply IH. by apply window_ok_step.
Qed.

(* the subtraction of line 127 does not wrap *)
Lemma peakHeight_exact st :
  window_ok (meanWindowSize cfg) (window st) →
  peakHeight img beamDir st = binI img beamDir st - meanIntensity (window st)
  ∧ - 2 ^ 16 ≤ peakHeight img beamDir st ≤ 2 ^ 17.
Proof.
  intros Hw. apply meanIntensity_bound in Hw. unfold peakHeight.
  pose proof (mat_at_range img (f_trunc (py (sample_pos beamDir st)))
                (f_trunc (px (sample_pos beamDir st)))) as Hb.
  fold (binI img beamDir st) in Hb.
  rewrite to_int_small by lia. lia.
Qed.

Lemma beam_trace_bounded st bins :
  window_ok (meanWindowSize cfg) (window st) →
  Forall (λ bh, - 2 ^ 16 ≤ bh.2 ≤ 2 ^ 17)
         (beam_trace cfg img binStartPos beamDir st bins).
Proof.
  revert st. induction bins as [|b t IH]; intros st Hw; [constructor|].
  rewrite beam_trace_cons. constructor.
  - simpl. by apply peakHeight_exact.
  - apply IH. by apply window_ok_step.
Qed.
End WindowFacts.

Lemma open_run_Forall (P : Z * Z → Prop) hmin acc tr :
  Forall P acc → Forall P tr → Forall P (open_run hmin acc tr).
Proof.
  intros Hacc Htr. revert acc Hacc. induction Htr as [|x t Hx _ IH]; intros acc Hacc; [done|].
  simpl. apply IH. destruct (hmin <? x.2); [|constructor].
  apply Forall_app. split; [done|by constructor].
Qed.

Lemma foldl_min_bound lo hi a l :
  lo ≤ a ≤ hi → Forall (λ x, lo ≤ x ≤ hi) l → lo ≤ foldl Z.min a l ≤ hi.
Proof.
  intros Ha Hl. revert a Ha. induction Hl as [|x t Hx _ IH]; intros a Ha; [done|].
  simpl. apply IH. lia.
Qed.

Lemma list_min_bound lo hi d l :
  l ≠ [] → Forall (λ x, lo ≤ x ≤ hi) l → lo ≤ list_min d l ≤ hi.
Proof.
  intros Hne Hl. destruct l as [|a t]; [done|].
  apply Forall_cons in Hl as [Ha Ht]. simpl. by apply foldl_min_bound.
Qed.

(* with the queue segment() builds, of capacity meanWindowSize, the sum of
   line 153 does not wrap either: the threshold of a record is the mean at
   the closing bin plus the minimum height of the run, as integers *)
Lemma threshold_exact `{FloatOps F} (cfg : Config F) (img : Mat)
    (sonar : Point2f F) (rad : F) (q : CircularQueue) (f : Found F)
    (before : list Z) :
  cq_capacity q = meanWindowSize cfg →
  let origin := beam_start cfg sonar rad in
  let dir := beam_dir rad in
  let st0 := beam_init cfg sonar rad q f in
  let st := scan_bins cfg img origin dir st0 before in
  let r := open_run (Hmin cfg) [] (beam_trace cfg img origin dir st0 before) in
  r ≠ [] →
  to_int (meanIntensity (window st) + list_min 0 r.*2)
  = meanIntensity (window st) + list_min 0 r.*2.
Proof.
  intros Hcap origin dir st0 st r Hr.
  assert (Hw0 : window_ok (meanWindowSize cfg) (window st0)).
  { unfold st0, beam_init, window_ok, cq_size. simpl.
    split; [done|]. split; [constructor|].
    destruct (decide (meanWindowSize cfg ≤ 0)); [left; done|right].
    split; [lia|]. split; [lia|]. done. }
  pose proof (meanIntensity_bound _ _ (window_ok_scan cfg img origin dir st0 before Hw0))
    as Hm. fold st in Hm.
  assert (Hb : - 2 ^ 16 ≤ list_min 0 r.*2 ≤ 2 ^ 17).
  { apply list_min_bound; [by destruct r|].
    apply Forall_fmap. apply open_run_Forall; [constructor|].
    by apply beam_trace_bounded. }
  apply to_int_small. lia.
Qed.


(** C3. On every beam, a bin appends a record exactly when it closes a run
    (a run is open before it and its own height is at most Hmin); the
    threshold of that record is the background mean computed at this
    closing bin, before the bin enters the window, plus the minimum height
    over the bins of the run. The queue is the one segment() builds, of
    capacity meanWindowSize. *)
Theorem threshold_of_record `{FloatOps F} (cfg : Config F) (img : Mat)
    (sonar : Point2f F) (rad : F) (q : CircularQueue) (f : Found F)
    (before : list Z) (bin : Z) (rest : list Z) :
  seqZ 0 (nBins cfg img) = before ++ bin :: rest →
  cq_capacity q = meanWindowSize cfg →
  let origin := beam_start cfg sonar rad in
  let dir := beam_dir rad in
  let st0 := beam_init cfg sonar rad q f in
  let st := scan_bins cfg img origin dir st0 before in
  let r := open_run (Hmin cfg) [] (beam_trace cfg img origin dir st0 before) in
  let closing := bool_decide (r ≠ []) && bool_decide (peakHeight img dir st ≤ Hmin cfg) in
  peaks (found (scan_bin cfg img origin dir st bin)) =
  peaks (found st) ++
    (if closing
     then [(meanIntensity (window st) + list_min 0 r.*2,
            length (peaksPostions (found st)))]
     else []).
Proof.
  intros _ Hcap origin dir st0 st r closing.
  pose proof (threshold_of_record_int cfg img sonar rad q f before bin) as E.
  pose proof (threshold_exact cfg img sonar rad q f before Hcap) as X.
  cbv zeta in E, X. fold origin dir in E, X. fold st0 in E, X.
  fold st in E, X. fold r in E, X. fold closing in E.
  rewrite E. f_equal. destruct closing eqn:Hc; [|done].
  apply andb_true_iff in Hc as [Hr _]. apply bool_decide_eq_true in Hr.
  by rewrite (X Hr).
Qed.

Lemma threshold_of_record_witness :
  peaks (found (scan_bin two_peak_config two_peak_image
                  (vertical_origin two_peak_config two_peak_image)
                  (vertical_dir two_peak_config)
                  (two_peak_scan [0; 1; 2; 3; 4; 5]) 6))
  = [(300, 0%nat)].
Proof.
  refine (eq_trans
            (threshold_of_record two_peak_config two_peak_image
               (sonarPos two_peak_config two_peak_image)
               (f_div (f_neg (radBearing two_peak_config)) (f_of_Z 2))
               (mkQueue 5 []) (mkFound [] [])
               [0; 1; 2; 3; 4; 5] 6 [7; 8; 9] _ _) _).
  - vm_compute. reflexivity.
  - vm_compute. reflexivity.
  - vm_compute. reflexivity.
Defined.

(** ** The run variables inside a run *)

Lemma first_bin_with_elem h r b : first_bin_with h r = Some b → b ∈ r.*1.
Proof.
  induction r as [|x t IH]; simpl; [done|].
  destruct (x.2 =? h).
  - intros [= <-]. left.
  - intros Hb. right. by apply IH.
Qed.

Lemma open_run_subset hmin acc tr x :
  x ∈ open_run hmin acc tr → x ∈ acc ∨ x ∈ tr.
Proof.
  revert acc. induction tr as [|y t IH]; intros acc; simpl; [by left|].
  intros Hx. apply IH in Hx as [Hx|Hx]; [|right; by right].
  destruct (hmin <? y.2).
  - apply elem_of_app in Hx as [Hx|Hx]; [by left|].
    apply list_elem_of_singleton in Hx as ->. right. left.
  - by apply elem_of_nil in Hx.
Qed.

Lemma beam_trace_bins `{FloatOps F} (cfg : Config F) (img : Mat)
    (origin dir : Point2f F) st l :
  (beam_trace cfg img origin dir st l).*1 = l.
Proof.
  unfold beam_trace. rewrite fst_zip; [done|].
  by rewrite length_fmap, bin_states_length.
Qed.

(* a bin number of the loop that fits an int is stored unchanged *)
Lemma stored_bin `{FloatOps F} (cfg : Config F) (img : Mat)
    (origin dir : Point2f F) st bins h b :
  nBins cfg img ≤ 2 ^ 31 →
  bins ⊆ seqZ 0 (nBins cfg img) →
  first_bin_with h (open_run (Hmin cfg) [] (beam_trace cfg img origin dir st bins))
    = Some b →
  to_int b = b.
Proof.
  intros Hn Hsub Hb. apply first_bin_with_elem in Hb.
  apply list_elem_of_fmap in Hb as (x & -> & Hx).
  apply open_run_subset in Hx as [Hx|Hx]; [by apply elem_of_nil in Hx|].
  assert (Hin : x.1 ∈ bins).
  { rewrite <- (beam_trace_bins cfg img origin dir st bins).
    apply list_elem_of_fmap. by exists x. }
  apply Hsub, elem_of_seqZ in Hin. apply to_int_small. lia.
Qed.

(** C7. Whenever a bin of a beam leaves the scan inside a peak run,
    maxHeight is the maximum of the heights of the run's bins so far and
    maxHBin the earliest bin attaining it, minHeight is the minimum and
    minHBin the earliest bin attaining it (bin numbers are stored as int,
    which changes none of them as long as nBins ≤ 2^31); a bin that enters
    a run sets both extrema to its own height; a bin that continues a run
    updates at most one of the two extrema, the test for a new maximum
    coming first, both tests being strict. *)
Theorem extrema_invariant `{FloatOps F} (cfg : Config F) (img : Mat)
    (sonar : Point2f F) (rad : F) (q : CircularQueue) (f : Found F)
    (before : list Z) (bin : Z) (rest : list Z) :
  let origin := beam_start cfg sonar rad in
  let dir := beam_dir rad in
  let st0 := beam_init cfg sonar rad q f in
  let st := scan_bins cfg img origin dir st0 before in
  let st' := scan_bin cfg img origin dir st bin in
  let h := peakHeight img dir st in
  let r := open_run (Hmin cfg) [] (beam_trace cfg img origin dir st0 (before ++ [bin])) in
  seqZ 0 (nBins cfg img) = before ++ bin :: rest →
  onPeak (run st') = true →
  (maxHeight (run st') = list_max 0 r.*2
   ∧ to_int <$> first_bin_with (maxHeight (run st')) r = Some (maxHBin (run st'))
   ∧ minHeight (run st') = list_min 0 r.*2
   ∧ to_int <$> first_bin_with (minHeight (run st')) r = Some (minHBin (run st')))
  ∧ (onPeak (run st) = false →
       r = [(bin, h)]
       ∧ maxHeight (run st') = h ∧ minHeight (run st') = h
       ∧ maxHBin (run st') = to_int bin ∧ minHBin (run st') = to_int bin)
  ∧ (onPeak (run st) = true →
       (maxHeight (run st) < h →
          maxHeight (run st') = h ∧ maxHBin (run st') = to_int bin
          ∧ minHeight (run st') = minHeight (run st)
          ∧ minHBin (run st') = minHBin (run st))
       ∧ (h ≤ maxHeight (run st) →
          maxHeight (run st') = maxHeight (run st)
          ∧ maxHBin (run st') = maxHBin (run st))
       ∧ (minHeight (run st) ≤ h →
          minHeight (run st') = minHeight (run st)
          ∧ minHBin (run st') = minHBin (run st))
       ∧ ((maxHeight (run st') = maxHeight (run st)
           ∧ maxHBin (run st') = maxHBin (run st))
          ∨ (minHeight (run st') = minHeight (run st)
             ∧ minHBin (run st') = minHBin (run st))))
  ∧ (nBins cfg img ≤ 2 ^ 31 →
       first_bin_with (maxHeight (run st')) r = Some (maxHBin (run st'))
       ∧ first_bin_with (minHeight (run st')) r = Some (minHBin (run st'))).
Proof.
  intros origin dir st0 st st' h r Hbins Hon'.
  destruct (run_invariant cfg img origin dir st0 (before ++ [bin]) eq_refl)
    as [Hon Hr].
  rewrite scan_snoc in Hon, Hr. fold st st' r in Hon, Hr.
  rewrite Hon' in Hon. symmetry in Hon. apply bool_decide_eq_true in Hon.
  destruct (Hr Hon) as (Emax & Emin & Bmax & Bmin).
  split; [done|].
  assert (Hab : (Hmin cfg <? h) = true).
  { rewrite <- Hon'. symmetry. apply (onPeak_step cfg img origin dir st bin). }
  destruct (run_invariant cfg img origin dir st0 before eq_refl) as [Hon0 Hr0].
  fold st in Hon0, Hr0.
  split.
  - intros Hoff. rewrite Hoff in Hon0. symmetry in Hon0.
    apply bool_decide_eq_false in Hon0.
    unfold r. rewrite run_of_snoc. fold st h. rewrite Hab.
    split.
    { destruct (open_run (Hmin cfg) [] (beam_trace cfg img origin dir st0 before));
        [done|]. exfalso. by apply Hon0. }
    unfold st', scan_bin. simpl. fold h. unfold track. rewrite Hab, Hoff.
    done.
  - split.
    + intros Hin. unfold st', scan_bin. simpl. fold h. unfold track.
      rewrite Hab, Hin. simpl.
      destruct (Z.ltb_spec (maxHeight (run st)) h);
        destruct (Z.ltb_spec h (minHeight (run st))); simpl;
        repeat split; intros; try lia; auto.
    + intros Hn.
      assert (Hsub : before ++ [bin] ⊆ seqZ 0 (nBins cfg img)).
      { rewrite Hbins. intros x Hx. apply elem_of_app in Hx as [Hx|Hx].
        - apply elem_of_app. by left.
        - apply list_elem_of_singleton in Hx as ->. apply elem_of_app. right. left. }
      fold r in Bmax, Bmin.
      destruct (first_bin_with (maxHeight (run st')) r) as [b1|] eqn:E1; [|done].
      destruct (first_bin_with (minHeight (run st')) r) as [b2|] eqn:E2; [|done].
      apply (stored_bin cfg img origin dir st0 (before ++ [bin]) _ _ Hn Hsub) in E1.
      apply (stored_bin cfg img origin dir st0 (before ++ [bin]) _ _ Hn Hsub) in E2.
      change (Some (to_int b1) = Some (maxHBin (run st'))) in Bmax.
      change (Some (to_int b2) = Some (minHBin (run st'))) in Bmin.
      by rewrite <- Bmax, <- Bmin, E1, E2.
Qed.

Lemma extrema_invariant_witness :
  maxHeight (run (two_peak_scan [0; 1; 2; 3; 4])) = 500
  ∧ maxHBin (run (two_peak_scan [0; 1; 2; 3; 4])) = 4
  ∧ minHeight (run (two_peak_scan [0; 1; 2; 3; 4]))
    = minHeight (run (two_peak_scan [0; 1; 2; 3]))
  ∧ minHBin (run (two_peak_scan [0; 1; 2; 3; 4]))
    = minHBin (run (two_peak_scan [0; 1; 2; 3])).
Proof.
  destruct (extrema_invariant two_peak_config two_peak_image
              (sonarPos two_peak_config two_peak_image)
              (f_div (f_neg (radBearing two_peak_config)) (f_of_Z 2))
              (mkQueue 5 []) (mkFound [] [])
              [0; 1; 2; 3] 4 [5; 6; 7; 8; 9]) as (_ & _ & Hstep & _).
  - vm_compute. reflexivity.
  - vm_compute. reflexivity.
  - assert (Hon : onPeak (run (two_peak_scan [0; 1; 2; 3])) = true)
      by (vm_compute; reflexivity).
    destruct (Hstep Hon) as (Hgt & _).
    assert (Hlt : maxHeight (run (two_peak_scan [0; 1; 2; 3]))
                  < peakHeight two_peak_image (vertical_dir two_peak_config)
                      (two_peak_scan [0; 1; 2; 3]))
      by (vm_compute; reflexivity).
    destruct (Hgt Hlt) as (A & B & C & D).
    change (maxHeight (run (two_peak_scan [0; 1; 2; 3; 4]))
            = peakHeight two_peak_image (vertical_dir two_peak_config)
                (two_peak_scan [0; 1; 2; 3])) in A.
    change (maxHBin (run (two_peak_scan [0; 1; 2; 3; 4])) = to_int 4) in B.
    split; [rewrite A; vm_compute; reflexivity|].
    split; [rewrite B; vm_compute; reflexivity|].
    split; [exact C|exact D].
Defined.

(** ** The number of bins of a beam *)

Lemma scan_beams_no_bins `{FloatOps F} (cfg : Config F) (img : Mat) n rad q f :
  nBins cfg img = 0 → scan_beams cfg img n rad q f = f.
Proof.
  intros Hn. revert rad q. induction n as [|n IH]; intros rad q; simpl; [done|].
  unfold scan_beam. rewrite Hn. simpl. apply IH.
Qed.

(** ** Where a bin is sampled and where its seed lies *)

Lemma binPos_scan `{FloatOps F} (cfg : Config F) (img : Mat)
    (origin dir : Point2f F) st l :
  binPos (scan_bins cfg img origin dir st l)
  = Nat.iter (length l) (λ p, pt_add p dir) (binPos st).
Proof.
  induction l as [|b l IH] using rev_ind; [done|].
  rewrite scan_snoc, length_app, Nat.add_comm. simpl. by rewrite <- IH.
Qed.

(* bin number k (counted from 0) is read k + 1 steps from the ray origin *)
Lemma sample_pos_of_bin `{FloatOps F} (cfg : Config F) (img : Mat)
    (sonar : Point2f F) rad q f (k : nat) :
  sample_pos (beam_dir rad)
    (scan_bins cfg img (beam_start cfg sonar rad) (beam_dir rad)
       (beam_init cfg sonar rad q f) (seqZ 0 (Z.of_nat k)))
  = Nat.iter (S k) (λ p, pt_add p (beam_dir rad)) (beam_start cfg sonar rad).
Proof.
  unfold sample_pos. rewrite binPos_scan, length_seqZ, Nat2Z.id. done.
Qed.

(** C4 on the code. One vertical beam over a dark column with the run
    300, 400, 500, 350 at bins 2..5: the run's strongest bin is bin 4,
    which was read at pixel (6, 1) of intensity 500, but the seed stored
    for the record is pixel (7, 1), where bin 3 was read. *)
Theorem seed_one_bin_short :
  let cfg := two_peak_config in
  let img := two_peak_image in
  let origin := vertical_origin cfg img in
  let dir := vertical_dir cfg in
  let st0 := vertical_start cfg img in
  maxHBin (run (scan_bins cfg img origin dir st0 [0; 1; 2; 3; 4; 5])) = 4
  ∧ pixel_of (sample_pos dir (scan_bins cfg img origin dir st0 [0; 1; 2; 3])) = (6, 1)
  ∧ mat_at img 6 1 = 500
  ∧ peaks (find_peaks cfg img) = [(300, 0%nat); (600, 1%nat)]
  ∧ pixel_of <$> peaksPostions (find_peaks cfg img) = [(7, 1); (3, 1)]
  ∧ pixel_of (sample_pos dir (scan_bins cfg img origin dir st0 [0; 1; 2])) = (7, 1)
  ∧ mat_at img 7 1 = 400.
Proof. vm_compute. repeat split; reflexivity. Qed.

(* the cold start of the mean: a beam whose samples all exceed Hmin opens a
   run at its first bin, measured against the mean 0 of the empty window,
   and never closes it *)
Lemma bright_bin_keeps_window_empty `{FloatOps F} (cfg : Config F) (img : Mat)
    (origin dir : Point2f F) st bin :
  (∀ r c, Hmin cfg < mat_at img r c) →
  cq_items (lastBins (window st)) = [] →
  found (scan_bin cfg img origin dir st bin) = found st
  ∧ cq_items (lastBins (window (scan_bin cfg img origin dir st bin))) = [].
Proof.
  intros Hbright Hempty.
  assert (Hmean : meanIntensity (window st) = 0).
  { unfold meanIntensity, cq_size. by rewrite Hempty. }
  assert (Hh : (Hmin cfg <? peakHeight img dir st) = true).
  { apply Z.ltb_lt. unfold peakHeight. rewrite Hmean, Z.sub_0_r.
    unfold binI. rewrite to_int_small.
    - apply Hbright.
    - pose proof (mat_at_range img (f_trunc (py (sample_pos dir st)))
                    (f_trunc (px (sample_pos dir st)))). lia. }
  unfold scan_bin. simpl. rewrite onPeak_track, Hh. simpl.
  unfold emit. rewrite Hh. by destruct (found st).
Qed.

Lemma bright_beam_no_record `{FloatOps F} (cfg : Config F) (img : Mat)
    (origin dir : Point2f F) st bins :
  (∀ r c, Hmin cfg < mat_at img r c) →
  cq_items (lastBins (window st)) = [] →
  found (scan_bins cfg img origin dir st bins) = found st.
Proof.
  intros Hbright. revert st. induction bins as [|b t IH]; intros st Hempty; [done|].
  rewrite scan_cons.
  destruct (bright_bin_keeps_window_empty cfg img origin dir st b Hbright Hempty)
    as [Hf Hw].
  by rewrite IH, Hf.
Qed.

Lemma bright_image_no_peaks `{FloatOps F} (cfg : Config F) (img : Mat) :
  (∀ r c, Hmin cfg < mat_at img r c) →
  find_peaks cfg img = mkFound [] [].
Proof.
  intros Hbright. unfold find_peaks.
  generalize (f_div (f_neg (radBearing cfg)) (f_of_Z 2)).
  generalize (mkQueue (meanWindowSize cfg) []).
  induction (Z.to_nat (to_unsigned (nBeams cfg))) as [|n IH]; intros q rad; [done|].
  simpl. unfold scan_beam at 2. rewrite bright_beam_no_record by done.
  simpl. apply IH.
Qed.

(* the scenario of a flat background 50 with bins at 90 and Hmin = 20, on
   any geometry and any float arithmetic *)
Lemma flat_background_no_peaks `{FloatOps F} (cfg : Config F) (img : Mat) :
  Hmin cfg = 20 →
  (∀ r c, mat_at img r c = 50 ∨ mat_at img r c = 90) →
  find_peaks cfg img = mkFound [] [].
Proof.
  intros Hh Hpix. apply bright_image_no_peaks. intros r c.
  rewrite Hh. destruct (Hpix r c) as [-> | ->]; lia.
Qed.

(** C6 on the code. Flat background 50, Hmin = 20, window of 3, one run
    of five bins at 90: the first bin is measured against the mean 0 of the
    empty window, so every bin of the beam is above the margin, nothing
    enters the window, the single run never closes and no record is
    emitted. The bin loop of calibUI over the same beam emits the one
    record of threshold 90 whose strongest bin is bin 3, the first of the
    run. *)
Theorem flat_run_emits_nothing :
  let cfg := flat_run_config in
  let img := flat_run_image in
  let origin := vertical_origin cfg img in
  let dir := vertical_dir cfg in
  let st0 := vertical_start cfg img in
  let bins := seqZ 0 (nBins cfg img) in
  find_peaks cfg img = mkFound [] []
  ∧ beam_trace cfg img origin dir st0 bins
    = [(0, 50); (1, 50); (2, 50); (3, 90); (4, 90); (5, 90); (6, 90); (7, 90);
       (8, 50); (9, 50); (10, 50)]
  ∧ meanIntensity (window (scan_bins cfg img origin dir st0 bins)) = 0
  ∧ onPeak (run (scan_bins cfg img origin dir st0 bins)) = true
  ∧ peaks (found (foldl (calib_scan_bin cfg img origin dir) st0 bins))
    = [(90, 0%nat)]
  ∧ maxHBin (run (foldl (calib_scan_bin cfg img origin dir) st0 [0; 1; 2; 3; 4; 5; 6; 7]))
    = 3.
Proof. vm_compute. repeat split; reflexivity. Qed.

(** ** Records and their seeds stay paired *)

Lemma found_indices_step `{FloatOps F} (cfg : Config F) (img : Mat)
    (origin dir : Point2f F) st bin :
  (peaks (found st)).*2 = seq 0 (length (peaksPostions (found st))) →
  (peaks (found (scan_bin cfg img origin dir st bin))).*2
  = seq 0 (length (peaksPostions (found (scan_bin cfg img origin dir st bin)))).
Proof.
  intros Hf. rewrite peaks_step, positions_step.
  destruct (onPeak (run st) && negb (above cfg (bin, peakHeight img dir st))).
  - rewrite fmap_app, length_app, Hf. simpl. by rewrite Nat.add_1_r, seq_S.
  - by rewrite !app_nil_r.
Qed.

Lemma found_indices_scan `{FloatOps F} (cfg : Config F) (img : Mat)
    (origin dir : Point2f F) st bins :
  (peaks (found st)).*2 = seq 0 (length (peaksPostions (found st))) →
  (peaks (found (scan_bins cfg img origin dir st bins))).*2
  = seq 0 (length (peaksPostions (found (scan_bins cfg img origin dir st bins)))).
Proof.
  revert st. induction bins as [|b t IH]; intros st Hf; [done|].
  rewrite scan_cons. apply IH. by apply found_indices_step.
Qed.

Lemma found_indices_beams `{FloatOps F} (cfg : Config F) (img : Mat) n rad q f :
  (peaks f).*2 = seq 0 (length (peaksPostions f)) →
  (peaks (scan_beams cfg img n rad q f)).*2
  = seq 0 (length (peaksPostions (scan_beams cfg img n rad q f))).
Proof.
  revert rad q f. induction n as [|n IH]; intros rad q f Hf; simpl; [done|].
  apply IH. unfold scan_beam. by apply found_indices_scan.
Qed.

(* peaksPostions[peak.second] is always inside the vector, and it is the
   seed that was stored together with the record *)
Lemma peak_index_in_range `{FloatOps F} (cfg : Config F) (img : Mat) k thr idx :
  peaks (find_peaks cfg img) !! k = Some (thr, idx) →
  idx = k ∧ is_Some (peaksPostions (find_peaks cfg img) !! idx).
Proof.
  intros Hk.
  pose proof (found_indices_beams cfg img (Z.to_nat (to_unsigned (nBeams cfg)))
                (f_div (f_neg (radBearing cfg)) (f_of_Z 2))
                (mkQueue (meanWindowSize cfg) []) (mkFound [] []) eq_refl) as Hf.
  fold (find_peaks cfg img) in Hf.
  assert (Hi : (peaks (find_peaks cfg img)).*2 !! k = Some idx)
    by (by rewrite list_lookup_fmap, Hk).
  rewrite Hf in Hi. apply lookup_seq in Hi as [-> Hlt].
  split; [done|]. by apply lookup_lt_is_Some.
Qed.

(** ** Sorting the peak list *)

Lemma pair_le_lex a b : pair_le a b ↔ a.1 < b.1 ∨ (a.1 = b.1 ∧ (a.2 ≤ b.2)%nat).
Proof. unfold pair_le, pair_lt. lia. Qed.

Global Instance pair_le_trans : Transitive pair_le.
Proof. intros a b c. rewrite !pair_le_lex. lia. Qed.

Global Instance pair_le_total : Total pair_le.
Proof. intros a b. rewrite !pair_le_lex. lia. Qed.

Global Instance pair_le_antisymm : AntiSymm (=) pair_le.
Proof.
  intros [a1 a2] [b1 b2]. rewrite !pair_le_lex. simpl. intros ? ?.
  f_equal; lia.
Qed.

Lemma merge_sort_sorts : sorts (merge_sort pair_le).
Proof.
  intros l. split; [apply (Sorted_merge_sort pair_le)|apply merge_sort_Permutation].
Qed.

Lemma insert_pair_perm a l : insert_pair a l ≡ₚ a :: l.
Proof.
  induction l as [|b t IH]; simpl; [done|].
  case_decide; [done|]. rewrite IH. apply Permutation_swap.
Qed.

Lemma insert_pair_sorted a l : Sorted pair_le l → Sorted pair_le (insert_pair a l).
Proof.
  induction 1 as [|b t Hs IH Hhd]; simpl; [repeat constructor|].
  case_decide as Hab.
  - repeat constructor; done.
  - assert (pair_le b a) by (destruct (total pair_le a b); done).
    constructor; [done|].
    destruct Hhd as [|c t' Hbc]; simpl in *; [by repeat constructor|].
    case_decide; by constructor.
Qed.

Lemma insertion_sort_sorts : sorts insertion_sort.
Proof.
  intros l. unfold insertion_sort. induction l as [|a t [IHs IHp]]; simpl.
  - split; [constructor|done].
  - split; [by apply insert_pair_sorted|].
    by rewrite insert_pair_perm, IHp.
Qed.

Lemma sorts_unique srt1 srt2 l : sorts srt1 → sorts srt2 → srt1 l = srt2 l.
Proof.
  intros H1 H2. destruct (H1 l) as [S1 P1], (H2 l) as [S2 P2].
  apply (Sorted_unique pair_le); [done|done|]. by rewrite P1, P2.
Qed.

Lemma sorted_thresholds (l : list (Z * nat)) i j a b :
  Sorted pair_le l → (i < j)%nat →
  l.*1 !! i = Some a → l.*1 !! j = Some b → a ≤ b.
Proof.
  intros Hs. apply (Sorted_StronglySorted pair_le) in Hs.
  revert i j. induction Hs as [|x t Hs IH Hall]; intros i j Hij Hi Hj; [done|].
  destruct j as [|j]; [lia|]. simpl in Hj.
  destruct i as [|i]; simpl in Hi.
  - injection Hi as <-. rewrite list_lookup_fmap in Hj.
    destruct (t !! j) as [y|] eqn:Ey; [|done]. injection Hj as <-.
    rewrite Forall_forall in Hall.
    assert (pair_le x y) as Hxy by (apply Hall; eapply list_elem_of_lookup_2; done).
    apply pair_le_lex in Hxy. lia.
  - apply (IH i j); [lia|done|done].
Qed.

(** ** The extraction loop *)

Section ExtractFacts.
Context `{FloatOps F} `{Extractor F Mask}.
Variable cfg : Config F.
Variable img : Mat.

Lemma extract_step_unfold positions (e : Extraction F Mask) (peak : Z * nat) :
  let pos := default (mkPoint (f_of_Z 0) (f_of_Z 0)) (positions !! peak.2) in
  let mr := createSegment peak.1 img (py pos) (px pos) (mask (shared e)) in
  extract_step cfg img positions e peak =
  mkExtraction
    (mkShared mr.1 peak.1 (<[segCount e := mr.2]> (pool (shared e))))
    (if decide (kept cfg mr.2) then S (segCount e) else segCount e)
    (if decide (kept cfg mr.2) then sg e ++ [segCount e] else sg e)
    (grown e ++ [mkGrowth (segCount e) peak.1 pos mr.2]).
Proof.
  intros pos mr. unfold extract_step. fold pos. fold mr.
  destruct mr as [m region]. simpl. unfold kept.
  destruct (Z.leb_spec (minSampleSize cfg) (N region)); case_decide; (done || lia).
Qed.

Lemma filter_kept_snoc (l : list Segment) s :
  filter (kept cfg) (l ++ [s]) =
  filter (kept cfg) l ++ (if decide (kept cfg s) then [s] else []).
Proof.
  by rewrite filter_app.
Qed.

Lemma extraction_inv_step positions (e : Extraction F Mask) peak :
  extraction_inv cfg e → extraction_inv cfg (extract_step cfg img positions e peak).
Proof.
  intros (Hcount & Hsg & Hpool & Hhs & Hidx).
  rewrite extract_step_unfold. simpl.
  set (pos := default _ _). set (mr := createSegment _ _ _ _ _).
  set (seg := segCount e) in *.
  unfold extraction_inv. simpl.
  rewrite fmap_app. simpl. rewrite filter_kept_snoc.
  assert (Hfresh : (λ h, <[seg:=mr.2]> (pool (shared e)) !! h) <$> sg e
                   = (λ h, pool (shared e) !! h) <$> sg e).
  { apply list_fmap_ext. intros i h Hh. rewrite Hsg in Hh.
    apply lookup_seq in Hh as [-> ?]. apply lookup_insert_ne. lia. }
  split; [|split; [|split; [|split]]].
  - rewrite length_app. case_decide; simpl; lia.
  - case_decide; [|done]. rewrite seq_S. by rewrite Hsg.
  - case_decide.
    + rewrite !fmap_app, Hfresh, Hpool. simpl. by rewrite lookup_insert_eq.
    + by rewrite Hfresh, Hpool, app_nil_r.
  - rewrite filter_app, fmap_app, <- Hhs. f_equal.
    case_decide.
    + by rewrite filter_cons_True.
    + by rewrite filter_cons_False, app_nil_r.
  - intros i g Hi.
    destruct (decide (i < length (grown e))%nat) as [Hlt|Hge].
    + rewrite lookup_app_l in Hi by done.
      rewrite take_app_le by (rewrite length_fmap; lia).
      by apply Hidx.
    + assert (i = length (grown e)) as ->.
      { apply lookup_lt_Some in Hi. rewrite length_app in Hi. simpl in Hi. lia. }
      rewrite list_lookup_middle in Hi by done. injection Hi as <-. simpl.
      rewrite take_app_le by (rewrite length_fmap; lia).
      rewrite take_ge by (rewrite length_fmap; lia). done.
Qed.

Lemma extraction_inv_foldl positions (e : Extraction F Mask) l :
  extraction_inv cfg e →
  extraction_inv cfg (foldl (extract_step cfg img positions) e l).
Proof.
  revert e. induction l as [|p t IH]; intros e He; simpl; [done|].
  apply IH. by apply extraction_inv_step.
Qed.

Lemma extraction_inv_segment_with srt (sh : Shared Mask) :
  extraction_inv cfg (segment_with cfg img srt sh).
Proof.
  unfold segment_with. apply extraction_inv_foldl.
  unfold extraction_inv. simpl. repeat split; try done.
Qed.

Lemma grown_thresholds positions (e : Extraction F Mask) l :
  g_threshold <$> grown (foldl (extract_step cfg img positions) e l)
  = (g_threshold <$> grown e) ++ l.*1.
Proof.
  revert e. induction l as [|p t IH]; intros e; simpl.
  - by rewrite app_nil_r.
  - rewrite IH, extract_step_unfold. simpl.
    rewrite fmap_app. simpl. by rewrite <- app_assoc.
Qed.
End ExtractFacts.

Lemma processed_thresholds `{FloatOps F} `{Extractor F Mask} (cfg : Config F)
    (img : Mat) srt (sh : Shared Mask) :
  g_threshold <$> grown (segment_with cfg img srt sh)
  = (srt (peaks (find_peaks cfg img))).*1.
Proof. unfold segment_with. by rewrite grown_thresholds. Qed.

(* every record found is processed, once *)
Lemma processed_permutation `{FloatOps F} `{Extractor F Mask} (cfg : Config F)
    (img : Mat) (sh : Shared Mask) :
  g_threshold <$> grown (segment cfg img sh) ≡ₚ (peaks (find_peaks cfg img)).*1.
Proof.
  unfold segment. rewrite processed_thresholds.
  by rewrite (merge_sort_Permutation pair_le).
Qed.

(** C1. The extraction loop takes the peak records in ascending order of
    threshold: of two createSegment calls of one segment() call, the
    earlier one runs under a threshold that is at most that of the later
    one. *)
Theorem extraction_order `{FloatOps F} `{Extractor F Mask} (cfg : Config F)
    (img : Mat) (sh : Shared Mask) (i j : nat) (a b : Z) :
  let processed := g_threshold <$> grown (segment cfg img sh) in
  (i < j)%nat →
  processed !! i = Some a →
  processed !! j = Some b →
  a ≤ b.
Proof.
  intros processed Hij Hi Hj. unfold processed, segment in Hi, Hj.
  rewrite processed_thresholds in Hi, Hj.
  eapply sorted_thresholds; [|exact Hij|exact Hi|exact Hj].
  apply (Sorted_merge_sort pair_le).
Qed.

Lemma extraction_order_witness : 300 ≤ 600.
Proof.
  apply (extraction_order two_peak_config two_peak_image fresh 0 1 300 600).
  - lia.
  - vm_compute. reflexivity.
  - vm_compute. reflexivity.
Defined.

(** C5. When segment() returns, the regions behind the pointers of the
    output list are exactly the grown regions whose pixel count N is at
    least minSampleSize, in the order in which they were grown; so every
    region of the output has N ≥ minSampleSize. *)
Theorem kept_regions `{FloatOps F} `{Extractor F Mask} (cfg : Config F)
    (img : Mat) (sh : Shared Mask) :
  let e := segment cfg img sh in
  regions e = Some <$> filter (kept cfg) (g_region <$> grown e)
  ∧ Forall (λ r, ∃ s, r = Some s ∧ minSampleSize cfg ≤ N s) (regions e).
Proof.
  intros e.
  destruct (extraction_inv_segment_with cfg img (merge_sort pair_le) sh)
    as (_ & _ & Hpool & _).
  fold (segment cfg img sh) in Hpool. fold e in Hpool.
  assert (E : regions e = Some <$> filter (kept cfg) (g_region <$> grown e))
    by exact Hpool.
  split; [exact E|].
  rewrite E. apply Forall_fmap, Forall_forall. intros s Hs.
  apply list_elem_of_filter in Hs as [Hk _]. by exists s.
Qed.

(** C8, as the code has it. Every record is grown into the pool handle
    whose index is the number of regions kept before it; the handles of
    the kept regions are the output list and are pairwise distinct, while
    the record that follows a discarded region is grown into the handle
    that region used. *)
Theorem handle_of_record `{FloatOps F} `{Extractor F Mask} (cfg : Config F)
    (img : Mat) (sh : Shared Mask) (i : nat) (g : Growth F) :
  let e := segment cfg img sh in
  grown e !! i = Some g →
  g_handle g = length (filter (kept cfg) (take i (g_region <$> grown e)))
  ∧ (∀ g', grown e !! S i = Some g' →
       g_handle g' = if decide (kept cfg (g_region g))
                     then S (g_handle g) else g_handle g)
  ∧ sg e = g_handle <$> filter (λ g, kept cfg (g_region g)) (grown e)
  ∧ NoDup (sg e).
Proof.
  intros e Hi.
  destruct (extraction_inv_segment_with cfg img (merge_sort pair_le) sh)
    as (_ & Hsg & _ & Hhs & Hidx).
  fold (segment cfg img sh) in Hsg, Hhs, Hidx. fold e in Hsg, Hhs, Hidx.
  split; [by apply Hidx|]. split; [|split; [done|]].
  - intros g' Hi'. rewrite (Hidx _ _ Hi'), (Hidx _ _ Hi).
    rewrite (take_S_r _ _ (g_region g)) by (by rewrite list_lookup_fmap, Hi).
    rewrite filter_kept_snoc, length_app.
    case_decide; simpl; lia.
  - rewrite Hsg. apply NoDup_seq.
Qed.

Lemma handle_of_record_witness :
  ∃ g, grown (segment small_peaks_config small_peaks_image fresh) !! 1%nat = Some g
       ∧ g_handle g = 0%nat.
Proof.
  destruct (grown (segment small_peaks_config small_peaks_image fresh) !! 1%nat)
    as [g|] eqn:E; [|vm_compute in E; discriminate].
  exists g. split; [done|].
  destruct (handle_of_record small_peaks_config small_peaks_image fresh 1 g E)
    as (-> & _).
  vm_compute. reflexivity.
Defined.

(** C8, read as "no two records are grown into the same handle index",
    does not hold: with two peaks whose regions fall below minSampleSize,
    both records are grown into the handle of index 0. *)
Lemma handle_reused_after_discard :
  g_handle <$> grown (segment small_peaks_config small_peaks_image fresh)
    = [0%nat; 0%nat]
  ∧ ¬ NoDup (g_handle <$> grown (segment small_peaks_config small_peaks_image fresh)).
Proof.
  assert (E : g_handle <$> grown (segment small_peaks_config small_peaks_image fresh)
              = [0%nat; 0%nat]) by (vm_compute; reflexivity).
  split; [exact E|]. rewrite E. intros Hnd.
  apply NoDup_cons in Hnd as [Hin _]. apply Hin. left.
Qed.

(** C9. The result of segment() is fixed by the image, the configuration
    and the shared state it starts from: whichever routine meets the
    contract of std::sort, two calls return the same handles, the same
    regions in the same order, and leave the same shared state. *)
Theorem segment_deterministic `{FloatOps F} `{Extractor F Mask}
    (cfg : Config F) (img : Mat) (sh : Shared Mask)
    (srt1 srt2 : list (Z * nat) → list (Z * nat)) :
  sorts srt1 → sorts srt2 →
  let e1 := segment_with cfg img srt1 sh in
  let e2 := segment_with cfg img srt2 sh in
  sg e1 = sg e2 ∧ regions e1 = regions e2 ∧ shared e1 = shared e2
  ∧ grown e1 = grown e2.
Proof.
  intros H1 H2 e1 e2.
  assert (E : e1 = e2).
  { unfold e1, e2, segment_with.
    by rewrite (sorts_unique srt1 srt2 _ H1 H2). }
  by rewrite E.
Qed.

Lemma segment_deterministic_witness :
  regions (segment_with two_peak_config two_peak_image (merge_sort pair_le) fresh)
  = regions (segment_with two_peak_config two_peak_image insertion_sort fresh).
Proof.
  apply (segment_deterministic two_peak_config two_peak_image fresh
           (merge_sort pair_le) insertion_sort
           merge_sort_sorts insertion_sort_sorts).
Defined.

(** * Further properties of the scan *)

Lemma beam_init_window_ok `{FloatOps F} (cfg : Config F) sonar rad q f :
  cq_capacity q = meanWindowSize cfg →
  window_ok (meanWindowSize cfg) (window (beam_init cfg sonar rad q f)).
Proof.
  intros Hcap. unfold beam_init, window_ok, cq_size. simpl.
  split; [done|]. split; [constructor|].
  destruct (decide (meanWindowSize cfg ≤ 0)); [left; done|right].
  split; [lia|]. split; [lia|]. done.
Qed.

Lemma window_no_overflow w_size w :
  window_ok w_size w → w_size ≤ 32768 →
  (0 < w_size → ACCIntensity w = window_sum (cq_items (lastBins w)))
  ∧ 0 ≤ meanIntensity w < 2 ^ 16.
Proof.
  intros (_ & Hall & Hcase) Hsmall.
  pose proof (window_sum_bound _ Hall) as Hb.
  unfold meanIntensity, cq_size in *.
  destruct Hcase as [[Hle He]|(Hpos & Hlen & Hacc)].
  - rewrite He in *. simpl in *. split; [lia|lia].
  - set (n := Z.of_nat (length (cq_items (lastBins w)))) in *.
    assert (Hs : ACCIntensity w = window_sum (cq_items (lastBins w)))
      by (rewrite Hacc; apply to_int_small; lia).
    split; [done|]. rewrite Hs.
    destruct (Z.ltb_spec 0 n); [|lia].
    rewrite Z.quot_div_nonneg by lia. split.
    + apply Z.div_pos; lia.
    + apply Z.div_lt_upper_bound; lia.
Qed.

(** X1. Along every beam scanned with the queue segment() builds (capacity
    meanWindowSize > 0), the window never holds more than meanWindowSize
    values, every value is a 16-bit sample, and ACCIntensity is the sum of
    the values held, as an int; when meanWindowSize ≤ 32768 the sum does
    not wrap and the mean is a 16-bit value. *)
Theorem window_invariant `{FloatOps F} (cfg : Config F) (img : Mat)
    (sonar : Point2f F) (rad : F) (q : CircularQueue) (f : Found F)
    (bins : list Z) :
  cq_capacity q = meanWindowSize cfg →
  0 < meanWindowSize cfg →
  let w := window (scan_bins cfg img (beam_start cfg sonar rad) (beam_dir rad)
                     (beam_init cfg sonar rad q f) bins) in
  cq_capacity (lastBins w) = meanWindowSize cfg
  ∧ cq_size (lastBins w) ≤ meanWindowSize cfg
  ∧ Forall (λ v, 0 ≤ v < 2 ^ 16) (cq_items (lastBins w))
  ∧ ACCIntensity w = to_int (window_sum (cq_items (lastBins w)))
  ∧ (meanWindowSize cfg ≤ 32768 →
       ACCIntensity w = window_sum (cq_items (lastBins w))
       ∧ 0 ≤ meanIntensity w < 2 ^ 16).
Proof.
  intros Hcap Hpos w.
  pose proof (window_ok_scan cfg img (beam_start cfg sonar rad) (beam_dir rad)
                _ bins (beam_init_window_ok cfg sonar rad q f Hcap)) as Hok.
  fold w in Hok. pose proof Hok as (Hc & Hall & Hcase).
  destruct Hcase as [[Hle _]|(_ & Hlen & Hacc)]; [lia|].
  repeat split; try done.
  - by apply (window_no_overflow _ _ Hok).
  - by apply (window_no_overflow _ _ Hok).
  - by apply (window_no_overflow _ _ Hok).
Qed.

Lemma window_invariant_witness :
  cq_items (lastBins (window (two_peak_scan [0; 1; 2; 3; 4; 5; 6; 7])))
  = [0; 0; 0; 0].
Proof.
  destruct (window_invariant two_peak_config two_peak_image
              (sonarPos two_peak_config two_peak_image)
              (f_div (f_neg (radBearing two_peak_config)) (f_of_Z 2))
              (mkQueue 5 []) (mkFound [] []) [0; 1; 2; 3; 4; 5; 6; 7])
    as (_ & _ & _ & _ & _).
  - vm_compute. reflexivity.
  - vm_compute. reflexivity.
  - vm_compute. reflexivity.
Defined.

Lemma scan_bin_window `{FloatOps F} (cfg : Config F) (img : Mat)
    (origin dir : Point2f F) st bin :
  window (scan_bin cfg img origin dir st bin)
  = save_bin (meanWindowSize cfg) (binI img dir st)
             (Hmin cfg <? peakHeight img dir st) (window st).
Proof. unfold scan_bin. simpl. by rewrite onPeak_track. Qed.

(** X2. Only background bins enter the window. A bin whose height exceeds
    Hmin leaves ACCIntensity and the window as they were; any other bin
    becomes the newest value of the window, the oldest value leaving when
    meanWindowSize values are already held. *)
Theorem window_update `{FloatOps F} (cfg : Config F) (img : Mat)
    (sonar : Point2f F) (rad : F) (q : CircularQueue) (f : Found F)
    (before : list Z) (bin : Z) :
  cq_capacity q = meanWindowSize cfg →
  0 < meanWindowSize cfg →
  let origin := beam_start cfg sonar rad in
  let dir := beam_dir rad in
  let st := scan_bins cfg img origin dir (beam_init cfg sonar rad q f) before in
  let st' := scan_bin cfg img origin dir st bin in
  let items := cq_items (lastBins (window st)) in
  onPeak (run st') = bool_decide (Hmin cfg < peakHeight img dir st)
  ∧ (Hmin cfg < peakHeight img dir st → window st' = window st)
  ∧ (peakHeight img dir st ≤ Hmin cfg →
       cq_items (lastBins (window st'))
       = (if bool_decide (meanWindowSize cfg ≤ cq_size (lastBins (window st)))
          then tail items else items) ++ [binI img dir st]).
Proof.
  intros Hcap Hpos origin dir st st' items.
  pose proof (window_ok_scan cfg img origin dir _ before
                (beam_init_window_ok cfg sonar rad q f Hcap)) as Hok.
  fold st in Hok. destruct Hok as (Hc & Hall & Hcase).
  destruct Hcase as [[Hle _]|(_ & Hlen & Hacc)]; [lia|].
  split; [|split].
  - unfold st'. rewrite onPeak_step. unfold above. simpl.
    destruct (Z.ltb_spec (Hmin cfg) (peakHeight img dir st)).
    + by rewrite bool_decide_eq_true_2.
    + rewrite bool_decide_eq_false_2; [done|lia].
  - intros Hab. unfold st'. rewrite scan_bin_window.
    by rewrite (proj2 (Z.ltb_lt _ _) Hab).
  - intros Hnab. unfold st'. rewrite scan_bin_window.
    rewrite (proj2 (Z.ltb_ge _ _) Hnab). unfold save_bin. simpl.
    unfold items. destruct (window st) as [acc [cap its]]. simpl in *. subst cap.
    unfold cq_push, cq_pop, cq_size in *. simpl in *.
    destruct (Z.leb_spec (meanWindowSize cfg) (Z.of_nat (length its))) as [Hfull|Hroom];
      simpl.
    + rewrite bool_decide_eq_true_2 by done.
      destruct its as [|x t]; simpl in *; [lia|].
      rewrite (proj2 (Z.leb_gt _ _)) by lia. simpl.
      by rewrite (proj2 (Z.ltb_lt _ _)) by lia.
    + rewrite bool_decide_eq_false_2 by lia.
      rewrite (proj2 (Z.leb_gt _ _)) by lia. simpl.
      by rewrite (proj2 (Z.ltb_lt _ _)) by lia.
Qed.

Lemma window_update_witness :
  window (two_peak_scan [0; 1; 2]) = window (two_peak_scan [0; 1]).
Proof.
  destruct (window_update two_peak_config two_peak_image
              (sonarPos two_peak_config two_peak_image)
              (f_div (f_neg (radBearing two_peak_config)) (f_of_Z 2))
              (mkQueue 5 []) (mkFound [] []) [0; 1] 2)
    as (_ & Hin & _).
  - vm_compute. reflexivity.
  - vm_compute. reflexivity.
  - apply Hin. vm_compute. reflexivity.
Defined.

(** ** The threshold as a sample of the image *)

Section SampleFacts.
Context `{FloatOps F}.
Variable cfg : Config F.
Variable img : Mat.
Variables binStartPos beamDir : Point2f F.

Lemma beam_samples_snoc st l b :
  beam_samples cfg img binStartPos beamDir st (l ++ [b])
  = beam_samples cfg img binStartPos beamDir st l
    ++ [binI img beamDir (scan_bins cfg img binStartPos beamDir st l)].
Proof. unfold beam_samples. by rewrite bin_states_snoc, fmap_app. Qed.

Lemma beam_samples_length st l :
  length (beam_samples cfg img binStartPos beamDir st l) = length l.
Proof. unfold beam_samples. by rewrite length_fmap, bin_states_length. Qed.

Lemma beam_samples_range st l :
  Forall (λ v, 0 ≤ v < 2 ^ 16) (beam_samples cfg img binStartPos beamDir st l).
Proof.
  unfold beam_samples. apply Forall_fmap, Forall_forall. intros s _. simpl.
  apply mat_at_range.
Qed.

(* the heights of the open run are the last samples, each less the mean
   now in force: the window does not move while a run is open *)
Lemma run_heights_samples st0 l :
  window_ok (meanWindowSize cfg) (window st0) →
  let r := open_run (Hmin cfg) [] (beam_trace cfg img binStartPos beamDir st0 l) in
  let st := scan_bins cfg img binStartPos beamDir st0 l in
  (length r ≤ length l)%nat
  ∧ r.*2 = (λ v, v - meanIntensity (window st))
           <$> drop (length l - length r)
                    (beam_samples cfg img binStartPos beamDir st0 l).
Proof.
  intros Hok. induction l as [|b l IH] using rev_ind; [done|].
  cbv zeta in *. destruct IH as [Hlen IH].
  rewrite run_of_snoc, scan_snoc, beam_samples_snoc, length_app, scan_bin_window.
  change (length [b]) with 1%nat.
  set (st := scan_bins cfg img binStartPos beamDir st0 l) in *.
  set (r := open_run (Hmin cfg) [] (beam_trace cfg img binStartPos beamDir st0 l)) in *.
  pose proof (window_ok_scan cfg img binStartPos beamDir st0 l Hok) as Hst.
  fold st in Hst.
  destruct (peakHeight_exact cfg img beamDir st Hst) as [Hh _].
  destruct (Z.ltb_spec (Hmin cfg) (peakHeight img beamDir st)) as [Hab|Hnab].
  - unfold save_bin. change (negb true) with false. cbv iota.
    rewrite length_app. change (length [(b, peakHeight img beamDir st)]) with 1%nat.
    split; [lia|].
    replace (length l + 1 - (length r + 1))%nat with (length l - length r)%nat by lia.
    rewrite drop_app_le by (rewrite beam_samples_length; lia).
    rewrite !fmap_app. by rewrite IH, Hh.
  - change (length []) with 0%nat. split; [lia|].
    rewrite drop_ge; [done|]. rewrite length_app, beam_samples_length. simpl. lia.
Qed.
End SampleFacts.

(** ** The runs of a beam, read off the image *)



Section RayFacts.
Context `{FloatOps F}.
Variable cfg : Config F.
Variable img : Mat.
Variables origin dir : Point2f F.




Lemma scan_bins_iterations st n :
  scan_bins cfg img origin dir st (seqZ 0 (Z.of_nat n))
  = bin_iterations cfg img origin dir n st.
Proof.
  induction n as [|n IH]; [done|].
  rewrite seqZ_S, scan_snoc, IH, Z.add_0_l. done.
Qed.
End RayFacts.



(** ** The number of iterations of the bin loop *)

(** C10. nBins is rows − startBin reduced modulo 2^32, and the bin loop of
    every beam runs exactly that many times: what a beam leaves is the body
    of the loop applied (rows − startBin) mod 2^32 times, to the bins 0, 1,
    ... in turn, and binPos has moved that many steps along the ray. When
    rows = startBin no bin is scanned, no peak is found and the output is
    empty; when rows < startBin the difference wraps to
    2^32 − (startBin − rows) and the loop runs that many times. *)
Theorem bins_per_beam `{FloatOps F} `{Extractor F Mask} (cfg : Config F)
    (img : Mat) :
  let n := Z.to_nat ((rows img - startBin cfg) mod 2 ^ 32) in
  nBins cfg img = (rows img - startBin cfg) mod 2 ^ 32
  ∧ (∀ sonar rad q f,
       scan_beam cfg img sonar rad q f
       = bin_iterations cfg img (beam_start cfg sonar rad) (beam_dir rad) n
                        (beam_init cfg sonar rad q f)
       ∧ binPos (scan_beam cfg img sonar rad q f)
         = Nat.iter n (λ p, pt_add p (beam_dir rad)) (beam_start cfg sonar rad)
       ∧ length (bin_states cfg img (beam_start cfg sonar rad) (beam_dir rad)
                   (beam_init cfg sonar rad q f) (seqZ 0 (nBins cfg img)))
         = n)
  ∧ (rows img = startBin cfg →
       nBins cfg img = 0
       ∧ find_peaks cfg img = mkFound [] []
       ∧ ∀ sh : Shared Mask,
           sg (segment cfg img sh) = [] ∧ grown (segment cfg img sh) = [])
  ∧ (rows img < startBin cfg → startBin cfg - rows img ≤ 2 ^ 32 →
       nBins cfg img = 2 ^ 32 - (startBin cfg - rows img)
       ∧ 0 ≤ nBins cfg img < 2 ^ 32).
Proof.
  intros n. split; [done|]. split; [|split].
  - intros sonar rad q f.
    assert (Hn : nBins cfg img = Z.of_nat n).
    { unfold n, nBins, to_unsigned. rewrite Z2Nat.id; [done|].
      apply Z.mod_pos_bound. lia. }
    split; [|split].
    + unfold scan_beam. rewrite Hn. apply scan_bins_iterations.
    + unfold scan_beam. rewrite binPos_scan, length_seqZ, Hn, Nat2Z.id. done.
    + by rewrite bin_states_length, length_seqZ.
  - intros Heq.
    assert (Hn : nBins cfg img = 0).
    { unfold nBins, to_unsigned. by rewrite Heq, Z.sub_diag. }
    assert (Hf : find_peaks cfg img = mkFound [] []).
    { unfold find_peaks. by apply scan_beams_no_bins. }
    split; [done|]. split; [done|].
    intros sh. unfold segment, segment_with. rewrite Hf. done.
  - intros Hlt Hle. unfold nBins, to_unsigned.
    assert (E : (rows img - startBin cfg) mod 2 ^ 32
                = 2 ^ 32 - (startBin cfg - rows img)).
    { symmetry. apply (Z.mod_unique _ _ (-1)); lia. }
    rewrite E. lia.
Qed.

Lemma bins_per_beam_witness :
  pixel_of (binPos (scan_beam two_peak_config two_peak_image
                      (sonarPos two_peak_config two_peak_image)
                      (f_div (f_neg (radBearing two_peak_config)) (f_of_Z 2))
                      (mkQueue 5 []) (mkFound [] []))) = (1, 1)
  ∧ nBins default_config (column_image 0 [0]) = 4294967278.
Proof.
  split.
  - destruct (bins_per_beam (Mask := list (Z * Z)) two_peak_config two_peak_image)
      as (_ & Hloop & _).
    destruct (Hloop (sonarPos two_peak_config two_peak_image)
                (f_div (f_neg (radBearing two_peak_config)) (f_of_Z 2))
                (mkQueue 5 []) (mkFound [] [])) as (_ & -> & _).
    vm_compute. reflexivity.
  - destruct (bins_per_beam (Mask := list (Z * Z)) default_config (column_image 0 [0]))
      as (_ & _ & _ & Hwrap).
    destruct Hwrap as [-> _]; [vm_compute; reflexivity|vm_compute; discriminate|].
    vm_compute. reflexivity.
Defined.

Lemma foldl_min_shift m a l :
  foldl Z.min (a - m) ((λ v, v - m) <$> l) = foldl Z.min a l - m.
Proof.
  revert a. induction l as [|x t IH]; intros a; simpl; [done|].
  rewrite <- IH. f_equal. lia.
Qed.

Lemma list_min_shift d m l :
  l ≠ [] → list_min d ((λ v, v - m) <$> l) = list_min d l - m.
Proof. destruct l as [|a t]; [done|]. intros _. simpl. apply foldl_min_shift. Qed.

Lemma open_run_above hmin acc tr :
  Forall (λ bh, hmin < bh.2) acc → Forall (λ bh, hmin < bh.2) (open_run hmin acc tr).
Proof.
  revert acc. induction tr as [|x t IH]; intros acc Hacc; [done|].
  simpl. apply IH. destruct (Z.ltb_spec hmin x.2); [|constructor].
  apply Forall_app. split; [done|by constructor].
Qed.

(* the record a closing bin appends, in terms of the samples of its run *)
Lemma closing_threshold `{FloatOps F} (cfg : Config F) (img : Mat)
    (sonar : Point2f F) (rad : F) (q : CircularQueue) (f : Found F)
    (before : list Z) (bin : Z) :
  cq_capacity q = meanWindowSize cfg →
  let origin := beam_start cfg sonar rad in
  let dir := beam_dir rad in
  let st0 := beam_init cfg sonar rad q f in
  let st := scan_bins cfg img origin dir st0 before in
  let r := open_run (Hmin cfg) [] (beam_trace cfg img origin dir st0 before) in
  let run_samples :=
    drop (length before - length r) (beam_samples cfg img origin dir st0 before) in
  r ≠ [] →
  peakHeight img dir st ≤ Hmin cfg →
  peaks (found (scan_bin cfg img origin dir st bin))
  = peaks (found st)
    ++ [(list_min 0 run_samples, length (peaksPostions (found st)))]
  ∧ length run_samples = length r
  ∧ 0 ≤ list_min 0 run_samples < 2 ^ 16
  ∧ meanIntensity (window st) + Hmin cfg < list_min 0 run_samples.
Proof.
  intros Hcap origin dir st0 st r run_samples Hr Hclose.
  pose proof (beam_init_window_ok cfg sonar rad q f Hcap) as Hok. fold st0 in Hok.
  destruct (run_heights_samples cfg img origin dir st0 before Hok) as [Hlen Hrs].
  fold r st run_samples in Hlen, Hrs.
  assert (Hn : length run_samples = length r).
  { unfold run_samples. rewrite length_drop, beam_samples_length. lia. }
  assert (Hne : run_samples ≠ []) by (destruct run_samples, r; done).
  assert (Hmin_eq : list_min 0 r.*2
                    = list_min 0 run_samples - meanIntensity (window st)).
  { rewrite Hrs. by apply list_min_shift. }
  pose proof (threshold_of_record_int cfg img sonar rad q f before bin) as E.
  pose proof (threshold_exact cfg img sonar rad q f before Hcap) as X.
  cbv zeta in E, X. fold origin dir in E, X. fold st0 in E, X.
  fold st in E, X. fold r in E, X.
  rewrite (bool_decide_eq_true_2 _ Hr), (bool_decide_eq_true_2 _ Hclose) in E.
  simpl in E. rewrite (X Hr), Hmin_eq in E.
  replace (meanIntensity (window st)
           + (list_min 0 run_samples - meanIntensity (window st)))
    with (list_min 0 run_samples) in E by lia.
  split; [exact E|]. split; [exact Hn|]. split.
  - assert (0 ≤ list_min 0 run_samples ≤ 2 ^ 16 - 1); [|lia].
    apply list_min_bound; [done|]. unfold run_samples.
    apply Forall_drop. eapply Forall_impl; [apply beam_samples_range|].
    simpl. intros; lia.
  - assert (Hmin cfg + 1 ≤ list_min 0 r.*2 ≤ 2 ^ 17); [|lia].
    apply list_min_bound; [by destruct r|].
    apply Forall_fmap.
    pose proof (open_run_above (Hmin cfg) []
                  (beam_trace cfg img origin dir st0 before) (Forall_nil_2 _)) as Ha.
    pose proof (open_run_Forall (λ bh, - 2 ^ 16 ≤ bh.2 ≤ 2 ^ 17) (Hmin cfg) []
                  (beam_trace cfg img origin dir st0 before) (Forall_nil_2 _)
                  (beam_trace_bounded cfg img origin dir st0 before Hok)) as Hb.
    fold r in Ha, Hb. rewrite Forall_forall in Ha, Hb. apply Forall_forall.
    intros x Hx. specialize (Ha x Hx). specialize (Hb x Hx). simpl in *. lia.
Qed.

(** X3. With the queue segment() builds, the threshold of a record is the
    smallest sample among the bins of its run, hence a 16-bit value of the
    image, and it exceeds the background mean at the closing bin by more
    than Hmin. *)
Theorem threshold_is_min_sample `{FloatOps F} (cfg : Config F) (img : Mat)
    (sonar : Point2f F) (rad : F) (q : CircularQueue) (f : Found F)
    (before : list Z) (bin : Z) :
  cq_capacity q = meanWindowSize cfg →
  let origin := beam_start cfg sonar rad in
  let dir := beam_dir rad in
  let st0 := beam_init cfg sonar rad q f in
  let st := scan_bins cfg img origin dir st0 before in
  let r := open_run (Hmin cfg) [] (beam_trace cfg img origin dir st0 before) in
  let run_samples :=
    drop (length before - length r) (beam_samples cfg img origin dir st0 before) in
  r ≠ [] →
  peakHeight img dir st ≤ Hmin cfg →
  peaks (found (scan_bin cfg img origin dir st bin))
  = peaks (found st)
    ++ [(list_min 0 run_samples, length (peaksPostions (found st)))]
  ∧ length run_samples = length r
  ∧ 0 ≤ list_min 0 run_samples < 2 ^ 16
  ∧ meanIntensity (window st) + Hmin cfg < list_min 0 run_samples.
Proof. exact (closing_threshold cfg img sonar rad q f before bin). Qed.

Lemma threshold_is_min_sample_witness :
  peaks (found (two_peak_scan [0; 1; 2; 3; 4; 5; 6])) = [(300, 0%nat)].
Proof.
  destruct (threshold_is_min_sample two_peak_config two_peak_image
              (sonarPos two_peak_config two_peak_image)
              (f_div (f_neg (radBearing two_peak_config)) (f_of_Z 2))
              (mkQueue 5 []) (mkFound [] []) [0; 1; 2; 3; 4; 5] 6)
    as (E & _).
  - vm_compute. reflexivity.
  - vm_compute. discriminate.
  - vm_compute. discriminate.
  - vm_compute in E. vm_compute. exact E.
Defined.

(** ** How many records a scan can find *)

Lemma closes_bound prev flags :
  (2 * closes prev flags ≤ length flags + (if prev then 1 else 0))%nat.
Proof.
  revert prev. induction flags as [|b t IH]; intros prev; simpl; [lia|].
  specialize (IH b). destruct prev, b; simpl in *; lia.
Qed.

Lemma scan_bins_peaks_bound `{FloatOps F} (cfg : Config F) (img : Mat)
    (origin dir : Point2f F) st bins :
  onPeak (run st) = false →
  (2 * length (peaks (found (scan_bins cfg img origin dir st bins)))
   ≤ 2 * length (peaks (found st)) + length bins)%nat.
Proof.
  intros Hoff. rewrite peaks_scan, length_app, length_emitted, Hoff.
  pose proof (closes_bound false (above cfg <$> beam_trace cfg img origin dir st bins)) as Hb.
  rewrite length_fmap, beam_trace_length in Hb. lia.
Qed.

Lemma scan_beams_peaks_bound `{FloatOps F} (cfg : Config F) (img : Mat) n rad q f :
  (2 * length (peaks (scan_beams cfg img n rad q f))
   ≤ 2 * length (peaks f) + n * Z.to_nat (nBins cfg img))%nat.
Proof.
  revert rad q f. induction n as [|n IH]; intros rad q f; simpl; [lia|].
  etransitivity; [apply IH|].
  pose proof (scan_bins_peaks_bound cfg img (beam_start cfg (sonarPos cfg img) rad)
                (beam_dir rad) (beam_init cfg (sonarPos cfg img) rad q f)
                (seqZ 0 (nBins cfg img)) eq_refl) as Hb.
  rewrite length_seqZ in Hb. unfold scan_beam. simpl in Hb. lia.
Qed.

(** X4. A closed run takes at least two bins, one above the margin and the
    bin that closes it: a beam yields at most nBins / 2 records, and
    segment() finds at most nBeams * nBins / 2 peaks in all (nBeams read as
    the unsigned loop bound). *)
Theorem peaks_bound `{FloatOps F} (cfg : Config F) (img : Mat)
    (sonar : Point2f F) (rad : F) (q : CircularQueue) (f : Found F) :
  (2 * length (emitted cfg img (beam_start cfg sonar rad) (beam_dir rad)
                 (beam_init cfg sonar rad q f) (seqZ 0 (nBins cfg img)))
   ≤ Z.to_nat (nBins cfg img))%nat
  ∧ (2 * length (peaks (find_peaks cfg img))
     ≤ Z.to_nat (to_unsigned (nBeams cfg)) * Z.to_nat (nBins cfg img))%nat.
Proof.
  split.
  - rewrite length_emitted. simpl.
    pose proof (closes_bound false
                  (above cfg <$> beam_trace cfg img (beam_start cfg sonar rad)
                     (beam_dir rad) (beam_init cfg sonar rad q f)
                     (seqZ 0 (nBins cfg img)))) as Hb.
    rewrite length_fmap, beam_trace_length, length_seqZ in Hb. lia.
  - unfold find_peaks.
    etransitivity; [apply scan_beams_peaks_bound|]. simpl. lia.
Qed.

(** X5. The two parallel vectors stay in step: peaks and peaksPostions have
    the same length, and the second component of the k-th record is k, so
    peaksPostions[peak.second] always exists and is the seed pushed together
    with that record. *)
Theorem records_and_seeds_paired `{FloatOps F} (cfg : Config F) (img : Mat) :
  length (peaks (find_peaks cfg img)) = length (peaksPostions (find_peaks cfg img))
  ∧ (peaks (find_peaks cfg img)).*2
    = seq 0 (length (peaksPostions (find_peaks cfg img))).
Proof.
  pose proof (found_indices_beams cfg img (Z.to_nat (to_unsigned (nBeams cfg)))
                (f_div (f_neg (radBearing cfg)) (f_of_Z 2))
                (mkQueue (meanWindowSize cfg) []) (mkFound [] []) eq_refl) as Hf.
  fold (find_peaks cfg img) in Hf. split; [|exact Hf].
  apply (f_equal length) in Hf. by rewrite length_fmap, length_seq in Hf.
Qed.

Lemma bin_states_lookup `{FloatOps F} (cfg : Config F) (img : Mat)
    (origin dir : Point2f F) st bins k :
  (k < length bins)%nat →
  bin_states cfg img origin dir st bins !! k
  = Some (scan_bins cfg img origin dir st (take k bins)).
Proof.
  revert st k. induction bins as [|b t IH]; intros st k Hk; simpl in *; [lia|].
  destruct k as [|k]; [done|].
  exact (IH (scan_bin cfg img origin dir st b) k ltac:(lia)).
Qed.

(** X6. The position is advanced before the sample is read: the k-th bin
    met on a beam (counting from 0) is read at the ray origin advanced
    k + 1 times by beamDir, so no bin is read at the ray origin itself. *)
Theorem bin_sampling_position `{FloatOps F} (cfg : Config F) (img : Mat)
    (sonar : Point2f F) (rad : F) (q : CircularQueue) (f : Found F)
    (k : nat) (st : BeamState F) :
  bin_states cfg img (beam_start cfg sonar rad) (beam_dir rad)
             (beam_init cfg sonar rad q f) (seqZ 0 (nBins cfg img)) !! k = Some st →
  sample_pos (beam_dir rad) st
  = Nat.iter (S k) (λ p, pt_add p (beam_dir rad)) (beam_start cfg sonar rad)
  ∧ binI img (beam_dir rad) st
    = mat_at img (pixel_of (sample_pos (beam_dir rad) st)).1
                 (pixel_of (sample_pos (beam_dir rad) st)).2.
Proof.
  intros Hk. split; [|done].
  assert (Hlt : (k < length (seqZ 0 (nBins cfg img)))%nat).
  { apply lookup_lt_Some in Hk. by rewrite bin_states_length in Hk. }
  rewrite bin_states_lookup in Hk by done. injection Hk as <-.
  unfold sample_pos. rewrite binPos_scan, length_take. simpl.
  by rewrite Nat.min_l by lia.
Qed.

Lemma bin_sampling_position_witness :
  pixel_of (sample_pos (vertical_dir two_peak_config) (two_peak_scan [0; 1; 2; 3]))
  = (6, 1).
Proof.
  destruct (bin_sampling_position two_peak_config two_peak_image
              (sonarPos two_peak_config two_peak_image)
              (f_div (f_neg (radBearing two_peak_config)) (f_of_Z 2))
              (mkQueue 5 []) (mkFound [] []) 4 (two_peak_scan [0; 1; 2; 3]))
    as [E _].
  - vm_compute. reflexivity.
  - change (vertical_dir two_peak_config)
      with (beam_dir (f_div (f_neg (radBearing two_peak_config)) (f_of_Z 2))).
    rewrite E. vm_compute. reflexivity.
Defined.


(** ** Images without any peak *)

Lemma no_peaks_empty_output `{FloatOps F} `{Extractor F Mask} (cfg : Config F)
    (img : Mat) (sh : Shared Mask) :
  find_peaks cfg img = mkFound [] [] →
  sg (segment cfg img sh) = [] ∧ grown (segment cfg img sh) = []
  ∧ pool (shared (segment cfg img sh)) = pool sh.
Proof. intros Hf. unfold segment, segment_with. rewrite Hf. done. Qed.

(** X7. Cold start of the mean: when every sample of the image exceeds
    Hmin, the first bin of each beam opens a run that no bin closes, so
    segment() finds no peak, calls the extractor for nothing, returns an
    empty list and leaves the pool as it was. *)
Theorem bright_image_empty_output `{FloatOps F} `{Extractor F Mask}
    (cfg : Config F) (img : Mat) (sh : Shared Mask) :
  (∀ r c, Hmin cfg < mat_at img r c) →
  find_peaks cfg img = mkFound [] []
  ∧ sg (segment cfg img sh) = [] ∧ grown (segment cfg img sh) = []
  ∧ pool (shared (segment cfg img sh)) = pool sh.
Proof.
  intros Hbright. pose proof (bright_image_no_peaks cfg img Hbright) as Hf.
  split; [done|]. by apply no_peaks_empty_output.
Qed.

Lemma bright_image_empty_output_witness :
  sg (segment flat_run_config (uniform_image 12 3 50) fresh) = [].
Proof.
  destruct (bright_image_empty_output flat_run_config (uniform_image 12 3 50) fresh)
    as (_ & E & _).
  - intros r c. vm_compute. reflexivity.
  - exact E.
Defined.

Lemma dark_bin_no_record `{FloatOps F} (cfg : Config F) (img : Mat)
    (origin dir : Point2f F) st bin :
  (∀ r c, mat_at img r c ≤ Hmin cfg) →
  meanWindowSize cfg ≤ 32768 →
  window_ok (meanWindowSize cfg) (window st) →
  onPeak (run st) = false →
  found (scan_bin cfg img origin dir st bin) = found st
  ∧ onPeak (run (scan_bin cfg img origin dir st bin)) = false.
Proof.
  intros Hdark Hw Hok Hoff.
  destruct (peakHeight_exact cfg img dir st Hok) as [Hh _].
  destruct (window_no_overflow _ _ Hok Hw) as [_ Hm].
  assert (Hnab : (Hmin cfg <? peakHeight img dir st) = false).
  { apply Z.ltb_ge. rewrite Hh.
    pose proof (Hdark (f_trunc (py (sample_pos dir st)))
                      (f_trunc (px (sample_pos dir st)))) as Hd.
    fold (binI img dir st) in Hd. lia. }
  split.
  - unfold scan_bin, emit. simpl. rewrite Hnab, Hoff. by destruct (found st).
  - by rewrite onPeak_step.
Qed.

Lemma dark_beam_no_record `{FloatOps F} (cfg : Config F) (img : Mat)
    (origin dir : Point2f F) st bins :
  (∀ r c, mat_at img r c ≤ Hmin cfg) →
  meanWindowSize cfg ≤ 32768 →
  window_ok (meanWindowSize cfg) (window st) →
  onPeak (run st) = false →
  found (scan_bins cfg img origin dir st bins) = found st.
Proof.
  intros Hdark Hw. revert st. induction bins as [|b t IH]; intros st Hok Hoff; [done|].
  rewrite scan_cons.
  destruct (dark_bin_no_record cfg img origin dir st b Hdark Hw Hok Hoff) as [Hf Ho].
  rewrite IH; [done| |done]. by apply window_ok_step.
Qed.

Lemma dark_image_no_peaks `{FloatOps F} (cfg : Config F) (img : Mat) :
  (∀ r c, mat_at img r c ≤ Hmin cfg) →
  meanWindowSize cfg ≤ 32768 →
  find_peaks cfg img = mkFound [] [].
Proof.
  intros Hdark Hw. unfold find_peaks.
  generalize (f_div (f_neg (radBearing cfg)) (f_of_Z 2)).
  assert (Hcap : cq_capacity (mkQueue (meanWindowSize cfg) []) = meanWindowSize cfg)
    by done.
  revert Hcap. generalize (mkQueue (meanWindowSize cfg) []).
  induction (Z.to_nat (to_unsigned (nBeams cfg))) as [|n IH]; intros q Hcap rad; [done|].
  simpl.
  pose proof (beam_init_window_ok cfg (sonarPos cfg img) rad q (mkFound [] []) Hcap)
    as Hok.
  unfold scan_beam at 2.
  rewrite dark_beam_no_record by done. simpl. apply IH.
  unfold scan_beam.
  by destruct (window_ok_scan cfg img (beam_start cfg (sonarPos cfg img) rad)
                 (beam_dir rad) _ (seqZ 0 (nBins cfg img)) Hok) as [-> _].
Qed.

(** X8. When no sample of the image exceeds Hmin (and meanWindowSize is at
    most 32768, so that the sum of the window cannot wrap), no bin is ever
    above the margin: segment() finds no peak and returns an empty list. *)
Theorem dark_image_empty_output `{FloatOps F} `{Extractor F Mask}
    (cfg : Config F) (img : Mat) (sh : Shared Mask) :
  (∀ r c, mat_at img r c ≤ Hmin cfg) →
  meanWindowSize cfg ≤ 32768 →
  find_peaks cfg img = mkFound [] []
  ∧ sg (segment cfg img sh) = [] ∧ grown (segment cfg img sh) = []
  ∧ pool (shared (segment cfg img sh)) = pool sh.
Proof.
  intros Hdark Hw. pose proof (dark_image_no_peaks cfg img Hdark Hw) as Hf.
  split; [done|]. by apply no_peaks_empty_output.
Qed.

Lemma dark_image_empty_output_witness :
  sg (segment default_config (uniform_image 40 30 100) fresh) = [].
Proof.
  destruct (dark_image_empty_output default_config (uniform_image 40 30 100) fresh)
    as (_ & E & _).
  - intros r c. vm_compute. discriminate.
  - vm_compute. discriminate.
  - exact E.
Defined.

(** * Further properties of the extraction loop *)

(** X9. segment() calls createSegment once for every peak found, and the
    list it returns holds the pool handles 0, 1, ..., k-1 in this order,
    where k = segCount is the number of regions kept, at most the number of
    peaks. *)
Theorem output_handles `{FloatOps F} `{Extractor F Mask} (cfg : Config F)
    (img : Mat) (sh : Shared Mask) :
  let e := segment cfg img sh in
  length (grown e) = length (peaks (find_peaks cfg img))
  ∧ sg e = seq 0 (length (sg e))
  ∧ segCount e = length (sg e)
  ∧ (length (sg e) ≤ length (peaks (find_peaks cfg img)))%nat.
Proof.
  intros e.
  destruct (extraction_inv_segment_with cfg img (merge_sort pair_le) sh)
    as (Hcount & Hsg & _ & _ & _).
  fold (segment cfg img sh) in Hcount, Hsg. fold e in Hcount, Hsg.
  assert (Hlen : length (grown e) = length (peaks (find_peaks cfg img))).
  { pose proof (processed_thresholds cfg img (merge_sort pair_le) sh) as Hp.
    fold (segment cfg img sh) in Hp. fold e in Hp.
    apply (f_equal length) in Hp. rewrite !length_fmap in Hp.
    by rewrite Hp, (merge_sort_Permutation pair_le). }
  assert (Hk : length (sg e) = segCount e) by (by rewrite Hsg, length_seq).
  split; [done|]. split; [by rewrite Hk|]. split; [done|].
  rewrite Hk, Hcount, <- Hlen.
  etransitivity; [apply length_filter|]. by rewrite length_fmap.
Qed.

Lemma grown_seeds `{FloatOps F} `{Extractor F Mask} (cfg : Config F) (img : Mat)
    positions (e : Extraction F Mask) l :
  (λ g, (g_threshold g, g_seed g)) <$> grown (foldl (extract_step cfg img positions) e l)
  = ((λ g, (g_threshold g, g_seed g)) <$> grown e)
    ++ ((λ p : Z * nat,
           (p.1, default (mkPoint (f_of_Z 0) (f_of_Z 0)) (positions !! p.2))) <$> l).
Proof.
  revert e. induction l as [|p t IH]; intros e; simpl.
  - by rewrite app_nil_r.
  - rewrite IH, extract_step_unfold. simpl.
    rewrite fmap_app. simpl. by rewrite <- app_assoc.
Qed.

(** X10. Sorting does not separate a threshold from its seed: every
    createSegment call runs under the threshold of some record found by the
    scan and is seeded at the position that was pushed together with that
    record. *)
Theorem seed_follows_threshold `{FloatOps F} `{Extractor F Mask} (cfg : Config F)
    (img : Mat) (sh : Shared Mask) (i : nat) (g : Growth F) :
  grown (segment cfg img sh) !! i = Some g →
  ∃ k, peaks (find_peaks cfg img) !! k = Some (g_threshold g, k)
       ∧ peaksPostions (find_peaks cfg img) !! k = Some (g_seed g).
Proof.
  intros Hi.
  pose proof (grown_seeds cfg img (peaksPostions (find_peaks cfg img))
                (mkExtraction
                   (mkShared (resetMask (rows img) (cols img) (mask sh))
                             (threshold sh) (pool sh)) O [] [])
                (merge_sort pair_le (peaks (find_peaks cfg img)))) as Hg.
  fold (segment_with cfg img (merge_sort pair_le) sh) in Hg.
  fold (segment cfg img sh) in Hg. simpl in Hg.
  assert (Hl : ((λ g, (g_threshold g, g_seed g)) <$> grown (segment cfg img sh)) !! i
               = Some (g_threshold g, g_seed g))
    by (by rewrite list_lookup_fmap, Hi).
  rewrite Hg, list_lookup_fmap in Hl.
  destruct (merge_sort pair_le (peaks (find_peaks cfg img)) !! i) as [[thr idx]|] eqn:Ep;
    [|done].
  simpl in Hl. injection Hl as Ht Hs.
  assert (Hin : (thr, idx) ∈ peaks (find_peaks cfg img)).
  { rewrite <- (merge_sort_Permutation pair_le). by eapply list_elem_of_lookup_2. }
  apply list_elem_of_lookup in Hin as [k Hk].
  destruct (peak_index_in_range cfg img k thr idx Hk) as [-> [pos Hpos]].
  exists k. rewrite Hpos in Hs. simpl in Hs. by rewrite <- Ht, <- Hs.
Qed.

Lemma seed_follows_threshold_witness :
  ∃ k, peaks (find_peaks two_peak_config two_peak_image) !! k = Some (600, k).
Proof.
  destruct (grown (segment two_peak_config two_peak_image fresh) !! 1%nat)
    as [g|] eqn:E; [|vm_compute in E; discriminate].
  destruct (seed_follows_threshold two_peak_config two_peak_image fresh 1 g E)
    as (k & Hk & _).
  assert (Hg : g_threshold <$> grown (segment two_peak_config two_peak_image fresh) !! 1%nat
               = Some 600) by (vm_compute; reflexivity).
  rewrite E in Hg. injection Hg as Hg.
  exists k. by rewrite Hk, Hg.
Defined.

Lemma extract_pool_frame `{FloatOps F} `{Extractor F Mask} (cfg : Config F)
    (img : Mat) positions (e : Extraction F Mask) l :
  let e' := foldl (extract_step cfg img positions) e l in
  (segCount e ≤ segCount e')%nat
  ∧ ∀ h, (segCount e' < h)%nat → pool (shared e') !! h = pool (shared e) !! h.
Proof.
  revert e. induction l as [|p t IH]; intros e; simpl; [done|].
  destruct (IH (extract_step cfg img positions e p)) as [Hle Hfr].
  assert (Hstep : (segCount e ≤ segCount (extract_step cfg img positions e p))%nat).
  { rewrite extract_step_unfold. simpl. case_decide; lia. }
  split; [lia|]. intros h Hh. rewrite Hfr by done.
  rewrite extract_step_unfold. simpl. apply lookup_insert_ne. lia.
Qed.

(** X11. segment() writes no pool handle beyond the ones it counts: every
    handle whose index is above the final segCount is left as it was before
    the call. *)
Theorem pool_frame `{FloatOps F} `{Extractor F Mask} (cfg : Config F)
    (img : Mat) (sh : Shared Mask) (h : nat) :
  (segCount (segment cfg img sh) < h)%nat →
  pool (shared (segment cfg img sh)) !! h = pool sh !! h.
Proof.
  intros Hh. unfold segment, segment_with in *.
  by apply (extract_pool_frame cfg img).
Qed.

Lemma pool_frame_witness :
  pool (shared (segment two_peak_config two_peak_image fresh)) !! 2%nat = None.
Proof.
  rewrite (pool_frame two_peak_config two_peak_image fresh 2).
  - reflexivity.
  - vm_compute. lia.
Defined.

(** * load *)

(** X12. load never resets a member: with no key present it changes
    nothing, and a member whose key is missing keeps its value. For
    minSampleSize the key of the class wins over General/MinSampleSize,
    which is used only when the key of the class is missing. *)
Theorem load_missing_keys {F} (config : ConfigLoader F) (cfg : Config F) :
  ((∀ sec key, getInt config sec key = None) →
   (∀ sec key, getFloat config sec key = None) →
   load config cfg = cfg)
  ∧ (getInt config section_name "Hmin" = None → Hmin (load config cfg) = Hmin cfg)
  ∧ (getInt config section_name "nBeams" = None →
     nBeams (load config cfg) = nBeams cfg)
  ∧ (getInt config section_name "startBin" = None →
     startBin (load config cfg) = startBin cfg)
  ∧ (getInt config section_name "meanWindowSize" = None →
     meanWindowSize (load config cfg) = meanWindowSize cfg)
  ∧ (getInt config section_name "sonVerticalPosition" = None →
     sonVerticalPosition (load config cfg) = sonVerticalPosition cfg)
  ∧ (getFloat config section_name "bearing" = None →
     bearing (load config cfg) = bearing cfg)
  ∧ (∀ v, getInt config section_name "minSampleSize" = Some v →
     minSampleSize (load config cfg) = v)
  ∧ (∀ v, getInt config section_name "minSampleSize" = None →
     getInt config "General" "MinSampleSize" = Some v →
     minSampleSize (load config cfg) = v)
  ∧ (getInt config section_name "minSampleSize" = None →
     getInt config "General" "MinSampleSize" = None →
     minSampleSize (load config cfg) = minSampleSize cfg).
Proof.
  unfold load, int_or, float_or. simpl.
  split.
  { intros Hi Hf. rewrite !Hi, Hf. by destruct cfg. }
  repeat split; intros; simpl;
    repeat match goal with Hk : _ = _ |- _ => rewrite Hk end; done.
Qed.

Lemma load_missing_keys_witness :
  minSampleSize
    (load (loader_of [("General", "MinSampleSize", 7);
                      (section_name, "minSampleSize", 3)]) default_config) = 3
  ∧ minSampleSize
      (load (loader_of [("General", "MinSampleSize", 7)]) default_config) = 7
  ∧ Hmin (load (loader_of [("General", "MinSampleSize", 7)]) default_config) = 110.
Proof.
  split; [|split].
  - destruct (load_missing_keys
                (loader_of [("General", "MinSampleSize", 7);
                            (section_name, "minSampleSize", 3)]) default_config)
      as (_ & _ & _ & _ & _ & _ & _ & E & _).
    apply E. vm_compute. reflexivity.
  - destruct (load_missing_keys (loader_of [("General", "MinSampleSize", 7)])
                default_config) as (_ & _ & _ & _ & _ & _ & _ & _ & E & _).
    apply E; vm_compute; reflexivity.
  - destruct (load_missing_keys (loader_of [("General", "MinSampleSize", 7)])
                default_config) as (_ & E & _).
    rewrite E; vm_compute; reflexivity.
Defined.

(** X13. Loading the same configuration source twice gives what loading it
    once gives. *)
Theorem load_idempotent {F} (config : ConfigLoader F) (cfg : Config F) :
  load config (load config cfg) = load config cfg.
Proof.
  unfold load, int_or, float_or. simpl.
  repeat match goal with
         | |- context [getInt config ?s ?k] =>
             destruct (getInt config s k)
         | |- context [getFloat config ?s ?k] =>
             destruct (getFloat config s k)
         end; reflexivity.
Qed.

(** * calibUI *)

Lemma save_bin_capacity w_size v on_peak w :
  cq_capacity (lastBins (save_bin w_size v on_peak w)) = cq_capacity (lastBins w).
Proof.
  unfold save_bin, cq_push, cq_pop. destruct on_peak; simpl; [done|].
  repeat case_match; simpl; done.
Qed.

Lemma save_bin_nonempty w_size v w :
  0 < w_size → cq_capacity (lastBins w) = w_size →
  0 < cq_size (lastBins (save_bin w_size v false w)).
Proof.
  intros Hpos Hcap. unfold save_bin. simpl.
  destruct w as [acc [cap items]]. simpl in *. subst cap.
  unfold cq_push, cq_pop, cq_size. simpl.
  destruct (Z.leb_spec w_size (Z.of_nat (length items))); simpl;
    repeat case_match; simpl in *; rewrite ?length_app; simpl; try lia.
Qed.

Section CalibFacts.
Context `{FloatOps F}.
Variable cfg : Config F.
Variable img : Mat.
Variables origin dir : Point2f F.

Lemma calib_step_agree c s bin :
  state_agree c s →
  0 < cq_size (lastBins (window s)) →
  state_agree (calib_scan_bin cfg img origin dir c bin)
              (scan_bin cfg img origin dir s bin).
Proof.
  intros (Hp & Hw & Hf & Hon & Hmn & Hmb & Hmx) Hsize.
  assert (Hs : sample_pos dir c = sample_pos dir s) by (unfold sample_pos; by rewrite Hp).
  assert (Hi : binI img dir c = binI img dir s) by (unfold binI; by rewrite Hs).
  assert (Hm : calib_meanIntensity (binI img dir c) (window c) = meanIntensity (window s)).
  { unfold calib_meanIntensity, meanIntensity. rewrite Hw.
    by rewrite (proj2 (Z.ltb_lt _ _) Hsize). }
  unfold state_agree, calib_scan_bin, scan_bin. simpl.
  rewrite Hs, Hm, Hw, Hf. unfold peakHeight. rewrite <- Hi.
  set (h := to_int (binI img dir c - meanIntensity (window s))).
  unfold run_agree in *. unfold calib_track, track, emit.
  destruct (run c) as [cmax cmaxb cmin cminb con].
  destruct (run s) as [smax smaxb smin sminb son].
  simpl in *. subst son smin sminb.
  destruct con; [destruct (Hmx eq_refl) as [-> ->]|];
    destruct (Hmin cfg <? h); simpl;
    repeat case_match; simpl; repeat split; intros; done.
Qed.

Lemma calib_scan_agree c s bins :
  0 < meanWindowSize cfg →
  cq_capacity (lastBins (window s)) = meanWindowSize cfg →
  state_agree c s →
  0 < cq_size (lastBins (window s)) →
  state_agree (foldl (calib_scan_bin cfg img origin dir) c bins)
              (scan_bins cfg img origin dir s bins).
Proof.
  intros Hpos. revert c s. induction bins as [|b t IH]; intros c s Hcap Hag Hsize; [done|].
  apply (IH (calib_scan_bin cfg img origin dir c b) (scan_bin cfg img origin dir s b)).
  - rewrite scan_bin_window. by rewrite save_bin_capacity.
  - by apply calib_step_agree.
  - rewrite scan_bin_window.
    destruct (Hmin cfg <? peakHeight img dir s); [done|].
    by apply save_bin_nonempty.
Qed.
End CalibFacts.

Lemma calib_first_bin_agree `{FloatOps F} (cfg : Config F) (img : Mat)
    (origin dir : Point2f F) st bin :
  cq_items (lastBins (window st)) = [] →
  onPeak (run st) = false →
  0 ≤ Hmin cfg →
  binI img dir st ≤ Hmin cfg →
  state_agree (calib_scan_bin cfg img origin dir st bin)
              (scan_bin cfg img origin dir st bin)
  ∧ window (scan_bin cfg img origin dir st bin)
    = save_bin (meanWindowSize cfg) (binI img dir st) false (window st).
Proof.
  intros Hempty Hoff Hh Hfirst.
  pose proof (mat_at_range img (f_trunc (py (sample_pos dir st)))
                (f_trunc (px (sample_pos dir st)))) as Hr.
  fold (binI img dir st) in Hr.
  assert (Hm : meanIntensity (window st) = 0).
  { unfold meanIntensity, cq_size. by rewrite Hempty. }
  assert (Hc : calib_meanIntensity (binI img dir st) (window st) = binI img dir st).
  { unfold calib_meanIntensity, cq_size. by rewrite Hempty. }
  assert (Hseg : (Hmin cfg <? peakHeight img dir st) = false).
  { apply Z.ltb_ge. unfold peakHeight. rewrite Hm, Z.sub_0_r, to_int_small; lia. }
  assert (Hcal : (Hmin cfg <? to_int (binI img dir st - binI img dir st)) = false).
  { apply Z.ltb_ge. rewrite Z.sub_diag. by vm_compute (to_int 0). }
  split.
  - unfold state_agree, calib_scan_bin, scan_bin. simpl.
    rewrite Hc. unfold calib_track, track, emit, run_agree.
    rewrite Hseg, Hcal, Hoff. simpl. rewrite Hoff. done.
  - rewrite scan_bin_window. by rewrite Hseg.
Qed.

(** X14. For the selected beam calibUI finds the very records segment()
    finds on that beam, with the same seeds, provided the first sample of
    the beam is at most Hmin (Hmin ≥ 0, meanWindowSize > 0): the two bin
    loops differ only in the mean they assume while the window is empty,
    and in what they leave in maxHeight and maxHBin outside a run. *)
Theorem calib_shows_segment_peaks `{FloatOps F} (cfg : Config F) (img : Mat)
    (rad : F) (q : CircularQueue) :
  cq_capacity q = meanWindowSize cfg →
  0 < meanWindowSize cfg →
  0 ≤ Hmin cfg →
  binI img (beam_dir rad) (beam_init cfg (sonarPos cfg img) rad q (mkFound [] []))
    ≤ Hmin cfg →
  found (calib_scan_beam img cfg rad q)
    = found (scan_beam cfg img (sonarPos cfg img) rad q (mkFound [] []))
  ∧ window (calib_scan_beam img cfg rad q)
    = window (scan_beam cfg img (sonarPos cfg img) rad q (mkFound [] [])).
Proof.
  intros Hcap Hpos Hh Hfirst. unfold calib_scan_beam, scan_beam.
  set (origin := beam_start cfg (sonarPos cfg img) rad).
  set (dir := beam_dir rad).
  set (st0 := beam_init cfg (sonarPos cfg img) rad q (mkFound [] [])) in *.
  destruct (seqZ 0 (nBins cfg img)) as [|b t]; [done|].
  destruct (calib_first_bin_agree cfg img origin dir st0 b eq_refl eq_refl Hh Hfirst)
    as [Hag Hw].
  assert (Hall : state_agree
                   (foldl (calib_scan_bin cfg img origin dir)
                      (calib_scan_bin cfg img origin dir st0 b) t)
                   (scan_bins cfg img origin dir
                      (scan_bin cfg img origin dir st0 b) t)).
  { apply calib_scan_agree; [done| |done|].
    - by rewrite Hw, save_bin_capacity.
    - rewrite Hw. by apply save_bin_nonempty. }
  destruct Hall as (_ & Hw' & Hf' & _). split; [exact Hf'|exact Hw'].
Qed.

Lemma calib_shows_segment_peaks_witness :
  found (calib_scan_beam two_peak_image two_peak_config
           (f_div (f_neg (radBearing two_peak_config)) (f_of_Z 2)) (mkQueue 5 []))
  = find_peaks two_peak_config two_peak_image.
Proof.
  destruct (calib_shows_segment_peaks two_peak_config two_peak_image
              (f_div (f_neg (radBearing two_peak_config)) (f_of_Z 2)) (mkQueue 5 []))
    as [E _].
  - vm_compute. reflexivity.
  - vm_compute. reflexivity.
  - vm_compute. discriminate.
  - vm_compute. discriminate.
  - rewrite E. vm_compute. reflexivity.
Defined.

Section CalibLoopFacts.
Context `{FloatOps F} `{FloatOrd F} `{Extractor F Mask}.
Variable img : Mat.

Lemma calib_scan_capacity (cfg : Config F) origin dir st bins :
  cq_capacity (lastBins (window (foldl (calib_scan_bin cfg img origin dir) st bins)))
  = cq_capacity (lastBins (window st)).
Proof.
  revert st. induction bins as [|b t IH]; intros st; simpl; [done|].
  rewrite IH. unfold calib_scan_bin. simpl. apply save_bin_capacity.
Qed.

Lemma calib_pass_keeps (s : CalibState F Mask) :
  c_cfg (calib_pass img s) = c_cfg s
  ∧ c_currentRad (calib_pass img s) = c_currentRad s
  ∧ cq_capacity (c_lastBins (calib_pass img s)) = cq_capacity (c_lastBins s).
Proof.
  unfold calib_pass. simpl. repeat split.
  unfold calib_scan_beam. by rewrite calib_scan_capacity.
Qed.

Lemma calib_extract_frame positions (sh : Shared Mask) l h :
  h ≠ O →
  pool (foldl (calib_extract_step img positions) sh l) !! h = pool sh !! h.
Proof.
  intros Hh. revert sh. induction l as [|p t IH]; intros sh; simpl; [done|].
  rewrite IH. unfold calib_extract_step.
  destruct (createSegment _ _ _ _ _). simpl. by apply lookup_insert_ne.
Qed.

Lemma calib_key_shared c (s s' : CalibState F Mask) :
  calib_key c s = Some s' → c_shared s' = c_shared s.
Proof.
  unfold calib_key. repeat case_match; intros [= <-]; done.
Qed.

Lemma calib_pass_cfg (s : CalibState F Mask) : c_cfg (calib_pass img s) = c_cfg s.
Proof. apply calib_pass_keeps. Qed.

Lemma calib_key_tuned cfg0 c (s s' : CalibState F Mask) :
  calib_key c s = Some s' → tuned cfg0 s → tuned cfg0 s'.
Proof.
  unfold calib_key, tuned.
  intros Hk (Hev & Hcap & Hrest).
  repeat case_match; try discriminate; injection Hk as <-; simpl;
    rewrite ?to_int_even, ?Z.even_add, ?Z.even_sub; simpl;
    repeat split; try tauto;
    by (rewrite Hev; destruct (Z.even (Hmin cfg0))).
Qed.

Lemma calib_pass_tuned cfg0 (s : CalibState F Mask) :
  tuned cfg0 s → tuned cfg0 (calib_pass img s).
Proof.
  unfold tuned. destruct (calib_pass_keeps s) as (-> & _ & ->). done.
Qed.

Lemma calib_loop_tuned cfg0 keys (s : CalibState F Mask) :
  tuned cfg0 s → tuned cfg0 (calib_loop img keys s).
Proof.
  revert s. induction keys as [|c t IH]; intros s Hs; cbn [calib_loop];
    [by apply calib_pass_tuned|].
  pose proof (calib_pass_tuned cfg0 s Hs) as Hp.
  destruct (calib_key c (calib_pass img s)) as [s2|] eqn:Ek; [|done].
  apply IH. by eapply calib_key_tuned.
Qed.

(* one key, as long as the int does not overflow *)
Lemma calib_key_range c (s s' : CalibState F Mask) :
  calib_key c s = Some s' →
  (0 ≤ Hmin (c_cfg s) → Hmin (c_cfg s) + 2 < 2 ^ 31 →
     0 ≤ Hmin (c_cfg s') ≤ Hmin (c_cfg s) + 2)
  ∧ (0 ≤ meanWindowSize (c_cfg s) → meanWindowSize (c_cfg s) + 1 < 2 ^ 31 →
       0 ≤ meanWindowSize (c_cfg s') ≤ meanWindowSize (c_cfg s) + 1).
Proof.
  unfold calib_key. intros Hk.
  repeat case_match; try discriminate; injection Hk as <-; simpl;
    repeat match goal with
           | Hx : (_ <=? _) = true |- _ => apply Z.leb_le in Hx
           | Hx : (_ <? _) = true |- _ => apply Z.ltb_lt in Hx
           end;
    (split; intros; rewrite ?to_int_small by lia; lia).
Qed.

Lemma calib_loop_range keys (s : CalibState F Mask) :
  (0 ≤ Hmin (c_cfg s) → Hmin (c_cfg s) + 2 * Z.of_nat (length keys) < 2 ^ 31 →
     0 ≤ Hmin (c_cfg (calib_loop img keys s)))
  ∧ (0 ≤ meanWindowSize (c_cfg s) →
     meanWindowSize (c_cfg s) + Z.of_nat (length keys) < 2 ^ 31 →
       0 ≤ meanWindowSize (c_cfg (calib_loop img keys s))).
Proof.
  revert s. induction keys as [|c t IH]; intros s; cbn [calib_loop length].
  { by rewrite calib_pass_cfg. }
  pose proof (calib_pass_cfg s) as Hc.
  destruct (calib_key c (calib_pass img s)) as [s2|] eqn:Ek.
  - destruct (calib_key_range c _ _ Ek) as [B1 B2]. rewrite Hc in B1, B2.
    destruct (IH s2) as [I1 I2]. split.
    + intros Hnn Hb. apply I1; [apply B1|pose proof (B1 Hnn)]; lia.
    + intros Hnn Hb. apply I2; [apply B2|pose proof (B2 Hnn)]; lia.
  - rewrite Hc. done.
Qed.

(* the four tuning keys *)
Lemma calib_key_w (s : CalibState F Mask) :
  calib_key 119 s
  = Some (mkCalib (with_Hmin (c_cfg s) (to_int (Hmin (c_cfg s) + 2)))
                  (c_currentRad s) (c_lastBins s) (c_shared s)).
Proof. done. Qed.

Lemma calib_key_s (s : CalibState F Mask) :
  calib_key 115 s
  = Some (if 2 <=? Hmin (c_cfg s)
          then mkCalib (with_Hmin (c_cfg s) (to_int (Hmin (c_cfg s) - 2)))
                       (c_currentRad s) (c_lastBins s) (c_shared s)
          else s).
Proof. done. Qed.

Lemma calib_key_r (s : CalibState F Mask) :
  calib_key 114 s
  = Some (mkCalib (with_meanWindowSize (c_cfg s)
                     (to_int (meanWindowSize (c_cfg s) + 1)))
                  (c_currentRad s)
                  (mkQueue (to_int (meanWindowSize (c_cfg s) + 1)) [])
                  (c_shared s)).
Proof. done. Qed.

Lemma calib_key_f (s : CalibState F Mask) :
  calib_key 102 s
  = Some (if 0 <? meanWindowSize (c_cfg s)
          then mkCalib (with_meanWindowSize (c_cfg s)
                          (to_int (meanWindowSize (c_cfg s) - 1)))
                       (c_currentRad s)
                       (mkQueue (to_int (meanWindowSize (c_cfg s) - 1)) [])
                       (c_shared s)
          else s).
Proof. done. Qed.

Lemma calib_loop_frame keys (s : CalibState F Mask) h :
  h ≠ O →
  pool (c_shared (calib_loop img keys s)) !! h = pool (c_shared s) !! h.
Proof.
  intros Hh.
  assert (Hpass : ∀ s0 : CalibState F Mask,
             pool (c_shared (calib_pass img s0)) !! h = pool (c_shared s0) !! h).
  { intros s0. unfold calib_pass. simpl. by rewrite calib_extract_frame. }
  revert s. induction keys as [|c t IH]; intros s; cbn [calib_loop]; [apply Hpass|].
  pose proof (Hpass s) as Hp.
  destruct (calib_key c (calib_pass img s)) as [s2|] eqn:Ek; [|done].
  rewrite IH. by rewrite (calib_key_shared _ _ _ Ek).
Qed.
End CalibLoopFacts.

(** X15. Whatever keys are pressed, calibUI changes Hmin only by steps of
    2 (its parity is kept, also across the wrap-around of the int), keeps
    the capacity of lastBins equal to meanWindowSize, and touches no other
    member. Hmin and meanWindowSize stay non-negative when they start so
    and the keys are too few to overflow the int: Hmin + 2n < 2^31 and
    meanWindowSize + n < 2^31 for n keys. *)
Theorem calib_parameters `{FloatOps F} `{FloatOrd F} `{Extractor F Mask}
    (img : Mat) (cfg : Config F) (sh : Shared Mask) (keys : list Z) :
  let s := calibUI img cfg sh keys in
  let n := Z.of_nat (length keys) in
  (0 ≤ Hmin cfg → Hmin cfg + 2 * n < 2 ^ 31 → 0 ≤ Hmin (c_cfg s))
  ∧ (0 ≤ meanWindowSize cfg → meanWindowSize cfg + n < 2 ^ 31 →
       0 ≤ meanWindowSize (c_cfg s))
  ∧ Z.even (Hmin (c_cfg s)) = Z.even (Hmin cfg)
  ∧ cq_capacity (c_lastBins s) = meanWindowSize (c_cfg s)
  ∧ nBeams (c_cfg s) = nBeams cfg
  ∧ startBin (c_cfg s) = startBin cfg
  ∧ bearing (c_cfg s) = bearing cfg
  ∧ sonVerticalPosition (c_cfg s) = sonVerticalPosition cfg
  ∧ minSampleSize (c_cfg s) = minSampleSize cfg.
Proof.
  intros s n.
  destruct (calib_loop_range img keys
              (mkCalib cfg (f_div (f_neg (radBearing cfg)) (f_of_Z 2))
                       (mkQueue (meanWindowSize cfg) []) sh)) as [R1 R2].
  split; [exact R1|]. split; [exact R2|].
  apply (calib_loop_tuned img cfg keys). unfold tuned. simpl. repeat split; done.
Qed.

Lemma calib_parameters_witness :
  0 ≤ Hmin (c_cfg (calibUI two_peak_image two_peak_config fresh
                     [115; 115; 119; 102; 114; 97; 27; 119]))
  ∧ 0 ≤ meanWindowSize (c_cfg (calibUI two_peak_image two_peak_config fresh
                                 [115; 115; 119; 102; 114; 97; 27; 119])).
Proof.
  destruct (calib_parameters two_peak_image two_peak_config fresh
              [115; 115; 119; 102; 114; 97; 27; 119]) as (E1 & E2 & _).
  split.
  - apply E1; vm_compute; [discriminate|reflexivity].
  - apply E2; vm_compute; [discriminate|reflexivity].
Defined.

(** X16. The keys undo each other on the members: 'w' followed by 's'
    gives Hmin back when 0 ≤ Hmin and Hmin + 2 does not overflow the int,
    'r' followed by 'f' gives meanWindowSize back when 0 ≤ meanWindowSize
    and meanWindowSize + 1 does not overflow; 's' does nothing while
    Hmin < 2 and 'f' does nothing while meanWindowSize ≤ 0. *)
Theorem calib_keys_undo `{FloatOps F} `{FloatOrd F} `{Extractor F Mask}
    (img : Mat) (s : CalibState F Mask) :
  (0 ≤ Hmin (c_cfg s) → Hmin (c_cfg s) + 2 < 2 ^ 31 →
     c_cfg (calib_loop img [119; 115] s) = c_cfg s)
  ∧ (0 ≤ meanWindowSize (c_cfg s) → meanWindowSize (c_cfg s) + 1 < 2 ^ 31 →
       c_cfg (calib_loop img [114; 102] s) = c_cfg s)
  ∧ (Hmin (c_cfg s) < 2 → calib_key 115 s = Some s)
  ∧ (meanWindowSize (c_cfg s) ≤ 0 → calib_key 102 s = Some s).
Proof.
  split; [|split; [|split]].
  - intros Hnn Hb. cbn [calib_loop].
    rewrite calib_key_w, calib_key_s, !calib_pass_cfg.
    cbn [c_cfg with_Hmin Hmin]. rewrite (to_int_small (_ + 2)) by lia.
    rewrite (proj2 (Z.leb_le _ _)) by lia.
    cbn [c_cfg].
    unfold with_Hmin. destruct (c_cfg s). simpl in *. f_equal.
    rewrite to_int_small; lia.
  - intros Hnn Hb. cbn [calib_loop].
    rewrite calib_key_r, calib_key_f, !calib_pass_cfg.
    cbn [c_cfg with_meanWindowSize meanWindowSize].
    rewrite (to_int_small (_ + 1)) by lia.
    rewrite (proj2 (Z.ltb_lt _ _)) by lia.
    cbn [c_cfg].
    unfold with_meanWindowSize. destruct (c_cfg s). simpl in *. f_equal.
    rewrite to_int_small; lia.
  - intros Hlt. rewrite calib_key_s.
    by rewrite (proj2 (Z.leb_gt _ _)) by lia.
  - intros Hle. rewrite calib_key_f.
    by rewrite (proj2 (Z.ltb_ge _ _)) by lia.
Qed.

Lemma calib_keys_undo_witness :
  c_cfg (calib_loop two_peak_image [119; 115]
           (mkCalib two_peak_config (inject_Z 0) (mkQueue 5 []) fresh))
  = two_peak_config
  ∧ c_cfg (calib_loop two_peak_image [114; 102]
             (mkCalib two_peak_config (inject_Z 0) (mkQueue 5 []) fresh))
    = two_peak_config.
Proof.
  destruct (calib_keys_undo two_peak_image
              (mkCalib two_peak_config (inject_Z 0) (mkQueue 5 []) fresh))
    as (E1 & E2 & _).
  split.
  - apply E1; vm_compute; [discriminate|reflexivity].
  - apply E2; vm_compute; [discriminate|reflexivity].
Defined.

(** X17. calibUI grows every peak into the pool handle of index 0: however
    many passes it makes, no other handle of the pool changes. *)
Theorem calib_pool_frame `{FloatOps F} `{FloatOrd F} `{Extractor F Mask}
    (img : Mat) (cfg : Config F) (sh : Shared Mask) (keys : list Z) (h : nat) :
  h ≠ O →
  pool (c_shared (calibUI img cfg sh keys)) !! h = pool sh !! h.
Proof.
  intros Hh. unfold calibUI. by rewrite calib_loop_frame.
Qed.

Lemma calib_pool_frame_witness :
  pool (c_shared (calibUI two_peak_image two_peak_config fresh [119; 27])) !! 1%nat
  = None.
Proof.
  rewrite (calib_pool_frame two_peak_image two_peak_config fresh [119; 27] 1).
  - reflexivity.
  - lia.
Defined.

(** * Records of a beam, end to end *)

Section EmittedFacts.
Context `{FloatOps F}.
Variable cfg : Config F.
Variable img : Mat.
Variables origin dir : Point2f F.

(* the record a bin appends, if any *)
Abbreviation appended st bin :=
  (if onPeak (run st) && negb (above cfg (bin, peakHeight img dir st))
   then [(to_int (meanIntensity (window st) + minHeight (run st)),
          length (peaksPostions (found st)))]
   else []).
Abbreviation appended_seed st bin :=
  (if onPeak (run st) && negb (above cfg (bin, peakHeight img dir st))
   then [pt_add origin (pt_mul_int dir (maxHBin (run st)))]
   else []).

Lemma emitted_cons st b l :
  emitted cfg img origin dir st (b :: l)
  = appended st b ++ emitted cfg img origin dir (scan_bin cfg img origin dir st b) l.
Proof.
  pose proof (peaks_scan cfg img origin dir st (b :: l)) as E1.
  pose proof (peaks_scan cfg img origin dir (scan_bin cfg img origin dir st b) l) as E2.
  rewrite scan_cons, E2, peaks_step, <- app_assoc in E1.
  by apply app_inv_head in E1.
Qed.

Lemma emitted_snoc st l b :
  emitted cfg img origin dir st (l ++ [b])
  = emitted cfg img origin dir st l
    ++ appended (scan_bins cfg img origin dir st l) b.
Proof.
  pose proof (peaks_scan cfg img origin dir st (l ++ [b])) as E1.
  rewrite scan_snoc, peaks_step, peaks_scan, <- app_assoc in E1.
  by apply app_inv_head in E1.
Qed.

Lemma positions_scan_app st l :
  ∃ new, peaksPostions (found (scan_bins cfg img origin dir st l))
         = peaksPostions (found st) ++ new.
Proof.
  revert st. induction l as [|b t IH]; intros st.
  - exists []. simpl. by rewrite app_nil_r.
  - destruct (IH (scan_bin cfg img origin dir st b)) as [new E].
    rewrite scan_cons, E, positions_step. eexists. by rewrite <- app_assoc.
Qed.

Lemma positions_scan st l :
  peaksPostions (found (scan_bins cfg img origin dir st l))
  = peaksPostions (found st) ++ new_seeds cfg img origin dir st l.
Proof.
  unfold new_seeds. destruct (positions_scan_app st l) as [new ->].
  by rewrite drop_app_length.
Qed.

Lemma new_seeds_cons st b l :
  new_seeds cfg img origin dir st (b :: l)
  = appended_seed st b ++ new_seeds cfg img origin dir (scan_bin cfg img origin dir st b) l.
Proof.
  pose proof (positions_scan st (b :: l)) as E1.
  pose proof (positions_scan (scan_bin cfg img origin dir st b) l) as E2.
  rewrite scan_cons, E2, positions_step, <- app_assoc in E1.
  by apply app_inv_head in E1.
Qed.

(* binPos, the run variables and the window evolve on their own *)
Lemma scan_bin_core st1 st2 b :
  binPos st1 = binPos st2 → run st1 = run st2 → window st1 = window st2 →
  binPos (scan_bin cfg img origin dir st1 b) = binPos (scan_bin cfg img origin dir st2 b)
  ∧ run (scan_bin cfg img origin dir st1 b) = run (scan_bin cfg img origin dir st2 b)
  ∧ window (scan_bin cfg img origin dir st1 b)
    = window (scan_bin cfg img origin dir st2 b)
  ∧ peakHeight img dir st1 = peakHeight img dir st2.
Proof.
  intros Hp Hr Hw.
  assert (Hs : sample_pos dir st1 = sample_pos dir st2)
    by (unfold sample_pos; by rewrite Hp).
  assert (Hi : binI img dir st1 = binI img dir st2) by (unfold binI; by rewrite Hs).
  assert (Hh : peakHeight img dir st1 = peakHeight img dir st2)
    by (unfold peakHeight; by rewrite Hi, Hw).
  unfold scan_bin. simpl. by rewrite Hs, Hi, Hh, Hr, Hw.
Qed.

Lemma emitted_core st1 st2 bins :
  binPos st1 = binPos st2 → run st1 = run st2 → window st1 = window st2 →
  (emitted cfg img origin dir st1 bins).*1 = (emitted cfg img origin dir st2 bins).*1
  ∧ new_seeds cfg img origin dir st1 bins = new_seeds cfg img origin dir st2 bins
  ∧ window (scan_bins cfg img origin dir st1 bins)
    = window (scan_bins cfg img origin dir st2 bins).
Proof.
  revert st1 st2. induction bins as [|b t IH]; intros st1 st2 Hp Hr Hw.
  - unfold emitted, new_seeds. simpl. by rewrite !drop_all.
  - destruct (scan_bin_core st1 st2 b Hp Hr Hw) as (Hp' & Hr' & Hw' & Hh).
    destruct (IH _ _ Hp' Hr' Hw') as (IH1 & IH2 & IH3).
    rewrite !emitted_cons, !new_seeds_cons, !scan_cons, !fmap_app.
    rewrite IH1, IH2, IH3, Hr, Hw. unfold above. simpl. rewrite Hh.
    split; [|done]. f_equal.
    by destruct (onPeak (run st2) && negb (Hmin cfg <? peakHeight img dir st2)).
Qed.
End EmittedFacts.

(** X18. Beams do not influence each other: the thresholds and the seeds a
    beam contributes, and the window it leaves, depend neither on what
    earlier beams left in lastBins nor on the records found before; only
    the index stored with each record moves with the number of earlier
    records. *)
Theorem beams_independent `{FloatOps F} (cfg : Config F) (img : Mat)
    (sonar : Point2f F) (rad : F) (q1 q2 : CircularQueue) (f1 f2 : Found F) :
  cq_capacity q1 = cq_capacity q2 →
  (emitted cfg img (beam_start cfg sonar rad) (beam_dir rad)
           (beam_init cfg sonar rad q1 f1) (seqZ 0 (nBins cfg img))).*1
  = (emitted cfg img (beam_start cfg sonar rad) (beam_dir rad)
             (beam_init cfg sonar rad q2 f2) (seqZ 0 (nBins cfg img))).*1
  ∧ new_seeds cfg img (beam_start cfg sonar rad) (beam_dir rad)
              (beam_init cfg sonar rad q1 f1) (seqZ 0 (nBins cfg img))
    = new_seeds cfg img (beam_start cfg sonar rad) (beam_dir rad)
                (beam_init cfg sonar rad q2 f2) (seqZ 0 (nBins cfg img))
  ∧ window (scan_beam cfg img sonar rad q1 f1)
    = window (scan_beam cfg img sonar rad q2 f2)
  ∧ peaksPostions (found (scan_beam cfg img sonar rad q1 f1))
    = peaksPostions f1
      ++ new_seeds cfg img (beam_start cfg sonar rad) (beam_dir rad)
                   (beam_init cfg sonar rad q1 f1) (seqZ 0 (nBins cfg img)).
Proof.
  intros Hcap.
  destruct (emitted_core cfg img (beam_start cfg sonar rad) (beam_dir rad)
              (beam_init cfg sonar rad q1 f1) (beam_init cfg sonar rad q2 f2)
              (seqZ 0 (nBins cfg img))) as (E1 & E2 & E3); try done.
  { unfold beam_init, cq_clear. simpl. by rewrite Hcap. }
  split; [done|]. split; [done|]. split; [done|].
  unfold scan_beam. by rewrite positions_scan.
Qed.

Lemma beams_independent_witness :
  (emitted two_peak_config two_peak_image
           (beam_start two_peak_config (sonarPos two_peak_config two_peak_image)
                       (inject_Z 0))
           (beam_dir (inject_Z 0))
           (beam_init two_peak_config (sonarPos two_peak_config two_peak_image)
                      (inject_Z 0) (mkQueue 5 [7; 7]) (mkFound [(1, 0%nat)] []))
           (seqZ 0 (nBins two_peak_config two_peak_image))).*1
  = [300; 600].
Proof.
  destruct (beams_independent two_peak_config two_peak_image
              (sonarPos two_peak_config two_peak_image) (inject_Z 0)
              (mkQueue 5 []) (mkQueue 5 [7; 7])
              (mkFound [] []) (mkFound [(1, 0%nat)] [])) as (E & _).
  - reflexivity.
  - rewrite <- E. vm_compute. reflexivity.
Defined.

Lemma beam_thresholds_range `{FloatOps F} (cfg : Config F) (img : Mat)
    (sonar : Point2f F) (rad : F) (q : CircularQueue) (f : Found F) (bins : list Z) :
  cq_capacity q = meanWindowSize cfg →
  Forall (λ p : Z * nat, 0 ≤ p.1 < 2 ^ 16)
         (emitted cfg img (beam_start cfg sonar rad) (beam_dir rad)
                  (beam_init cfg sonar rad q f) bins).
Proof.
  intros Hcap. induction bins as [|b l IH] using rev_ind.
  - unfold emitted. simpl. by rewrite drop_all.
  - rewrite emitted_snoc. apply Forall_app. split; [done|].
    set (origin := beam_start cfg sonar rad) in *. set (dir := beam_dir rad) in *.
    set (st0 := beam_init cfg sonar rad q f) in *.
    set (st := scan_bins cfg img origin dir st0 l).
    destruct (onPeak (run st) && negb (above cfg (b, peakHeight img dir st))) eqn:Hc;
      [|constructor].
    apply andb_true_iff in Hc as [Hon Hnab].
    destruct (run_invariant cfg img origin dir st0 l eq_refl) as [Hr _].
    fold st in Hr. rewrite Hon in Hr. symmetry in Hr. apply bool_decide_eq_true in Hr.
    assert (Hclose : peakHeight img dir st ≤ Hmin cfg).
    { pose proof Hnab as Hn. unfold above in Hn. cbn [snd] in Hn.
      apply negb_true_iff, Z.ltb_ge in Hn. lia. }
    destruct (closing_threshold cfg img sonar rad q f l b Hcap Hr Hclose)
      as (E & _ & Hrange & _).
    fold origin dir st0 in E, Hrange. fold st in E.
    pose proof (peaks_step cfg img origin dir st b) as E'.
    rewrite E in E'. apply app_inv_head in E'.
    rewrite Hon, Hnab in E'. cbn [andb] in E'. injection E' as E'.
    constructor; [|constructor]. cbn [fst]. by rewrite <- E'.
Qed.

Lemma scan_beams_thresholds_range `{FloatOps F} (cfg : Config F) (img : Mat)
    n rad q f :
  cq_capacity q = meanWindowSize cfg →
  Forall (λ p : Z * nat, 0 ≤ p.1 < 2 ^ 16) (peaks f) →
  Forall (λ p : Z * nat, 0 ≤ p.1 < 2 ^ 16) (peaks (scan_beams cfg img n rad q f)).
Proof.
  revert rad q f. induction n as [|n IH]; intros rad q f Hcap Hf; simpl; [done|].
  apply IH.
  - unfold scan_beam.
    by destruct (window_ok_scan cfg img (beam_start cfg (sonarPos cfg img) rad)
                   (beam_dir rad) _ (seqZ 0 (nBins cfg img))
                   (beam_init_window_ok cfg (sonarPos cfg img) rad q f Hcap))
      as [-> _].
  - unfold scan_beam. rewrite peaks_scan. apply Forall_app. split; [done|].
    by apply beam_thresholds_range.
Qed.

(** X19. Every threshold segment() hands to the extractor is a 16-bit
    sample value of the image: the thresholds of all records found, and so
    of all createSegment calls, lie in 0 .. 65535. *)
Theorem thresholds_are_samples `{FloatOps F} `{Extractor F Mask} (cfg : Config F)
    (img : Mat) (sh : Shared Mask) :
  Forall (λ p : Z * nat, 0 ≤ p.1 < 2 ^ 16) (peaks (find_peaks cfg img))
  ∧ Forall (λ g, 0 ≤ g_threshold g < 2 ^ 16) (grown (segment cfg img sh)).
Proof.
  assert (Hp : Forall (λ p : Z * nat, 0 ≤ p.1 < 2 ^ 16) (peaks (find_peaks cfg img))).
  { unfold find_peaks. apply scan_beams_thresholds_range; [done|constructor]. }
  split; [done|].
  assert (Ht : Forall (λ t, 0 ≤ t < 2 ^ 16) (g_threshold <$> grown (segment cfg img sh))).
  { unfold segment. rewrite processed_thresholds.
    rewrite (merge_sort_Permutation pair_le). by apply Forall_fmap. }
  by apply Forall_fmap in Ht.
Qed.

(** * The keys of calibUI, counted *)

Lemma calib_key_bound `{FloatOps F} `{FloatOrd F} {Mask} c (s s' : CalibState F Mask) :
  calib_key c s = Some s' →
  is_int (Hmin (c_cfg s)) → is_int (meanWindowSize (c_cfg s)) →
  Hmin (c_cfg s') ≤ Hmin (c_cfg s) + 2
  ∧ meanWindowSize (c_cfg s') ≤ meanWindowSize (c_cfg s) + 1
  ∧ is_int (Hmin (c_cfg s')) ∧ is_int (meanWindowSize (c_cfg s')).
Proof.
  unfold calib_key, is_int. intros Hk Hh Hw.
  pose proof (to_int_range (Hmin (c_cfg s) + 2)).
  pose proof (to_int_range (Hmin (c_cfg s) - 2)).
  pose proof (to_int_range (meanWindowSize (c_cfg s) + 1)).
  pose proof (to_int_range (meanWindowSize (c_cfg s) - 1)).
  pose proof (to_int_le (Hmin (c_cfg s) + 2)).
  pose proof (to_int_le (Hmin (c_cfg s) - 2)).
  pose proof (to_int_le (meanWindowSize (c_cfg s) + 1)).
  pose proof (to_int_le (meanWindowSize (c_cfg s) - 1)).
  repeat case_match; try discriminate; injection Hk as <-; simpl;
    repeat match goal with
           | Hx : (_ <=? _) = true |- _ => apply Z.leb_le in Hx
           | Hx : (_ <? _) = true |- _ => apply Z.ltb_lt in Hx
           end;
    lia.
Qed.

Lemma calib_loop_bound `{FloatOps F} `{FloatOrd F} `{Extractor F Mask}
    (img : Mat) keys (s : CalibState F Mask) :
  is_int (Hmin (c_cfg s)) → is_int (meanWindowSize (c_cfg s)) →
  Hmin (c_cfg (calib_loop img keys s)) ≤ Hmin (c_cfg s) + 2 * Z.of_nat (length keys)
  ∧ meanWindowSize (c_cfg (calib_loop img keys s))
    ≤ meanWindowSize (c_cfg s) + Z.of_nat (length keys).
Proof.
  revert s. induction keys as [|c t IH]; intros s Hh Hw; cbn [calib_loop length].
  { rewrite calib_pass_cfg. lia. }
  pose proof (calib_pass_cfg img s) as Hc.
  destruct (calib_key c (calib_pass img s)) as [s2|] eqn:Ek.
  - destruct (calib_key_bound c _ _ Ek) as (B1 & B2 & I1 & I2);
      [by rewrite Hc..|].
    rewrite Hc in B1, B2. destruct (IH s2 I1 I2). lia.
  - rewrite Hc. lia.
Qed.

(** X20. n keys raise Hmin by at most 2n and meanWindowSize by at most
    n, Hmin and meanWindowSize being ints. *)
Theorem calib_parameters_bound `{FloatOps F} `{FloatOrd F} `{Extractor F Mask}
    (img : Mat) (cfg : Config F) (sh : Shared Mask) (keys : list Z) :
  is_int (Hmin cfg) → is_int (meanWindowSize cfg) →
  Hmin (c_cfg (calibUI img cfg sh keys)) ≤ Hmin cfg + 2 * Z.of_nat (length keys)
  ∧ meanWindowSize (c_cfg (calibUI img cfg sh keys))
    ≤ meanWindowSize cfg + Z.of_nat (length keys).
Proof. intros Hh Hw. unfold calibUI. by apply (calib_loop_bound img keys). Qed.

Lemma calib_parameters_bound_witness :
  Hmin (c_cfg (calibUI two_peak_image two_peak_config fresh [119; 115; 119; 114]))
  ≤ 118
  ∧ meanWindowSize (c_cfg (calibUI two_peak_image two_peak_config fresh
                             [119; 115; 119; 114]))
    ≤ 9.
Proof.
  destruct (calib_parameters_bound two_peak_image two_peak_config fresh
              [119; 115; 119; 114]) as (E1 & E2).
  - vm_compute. split; [discriminate|reflexivity].
  - vm_compute. split; [discriminate|reflexivity].
  - vm_compute in E1, E2. vm_compute. split; [exact E1|exact E2].
Defined.
